(** * resolve.py: an iterative DNS resolver, embedded and verified

    The embedding follows [src/resolve.py].  The wire-protocol library
    (dnspython) is outside the repository: its two entry points used by the
    resolver, [dns.name.from_text] and [dns.query.udp], are parameters of the
    model.  A query either gives a parsed message or [None], which is the
    failure value that [lookup] tests for.  The network may answer the same
    question differently over time, so the client is a function of the
    queries issued so far as well as of the query itself. *)

From stdpp Require Import gmap strings list fin_maps pretty.

Local Open Scope Z_scope.

(** ** Data model *)

(** Wire-protocol type codes ([dns.rdatatype]). *)
Module rdatatype.
Definition A : Z := 1.
Definition NS : Z := 2.
Definition CNAME : Z := 5.
Definition SOA : Z := 6.
Definition MX : Z := 15.
Definition AAAA : Z := 28.
End rdatatype.

(** [dns.name.Name]; [name_text] is what [str] gives. *)
Record Name := mkName { name_text : string }.

(** One resource record's data.  Python reads attributes by name, so the
    type-specific ones are optional: reading an absent one raises
    [AttributeError]. *)
Record Rdata := mkRdata {
  rdtype : Z;
  to_text : string;
  target : option Name;
  preference : option Z;
  exchange : option Name
}.

(** A resource-record set: owner name, type and the records, [rrset[i]]
    being [rrset_items !! i]. *)
Record RRset := mkRRset {
  rrset_name : Name;
  rrset_rdtype : Z;
  rrset_items : list Rdata
}.

(** [dns.message.Message], reduced to the three sections the resolver reads. *)
Record Message := mkMessage {
  answer : list RRset;
  authority : list RRset;
  additional : list RRset
}.

(** The arguments of one [dns.query.udp] call. *)
Record Query := mkQuery {
  q_name : Name;
  q_rdtype : Z;
  q_where : string;
  q_timeout : Z
}.

(** The queries issued so far, oldest first. *)
Abbreviation Log := (list Query).

Inductive Exception :=
| IndexError
| AttributeError
| UnboundLocalError
| SyntaxError.

(** Values stored in the result entries of [collect_results]. *)
Inductive Value :=
| VStr (s : string)
| VInt (z : Z)
| VName (n : Name)
| VRdata (r : Rdata).

Abbreviation Entry := (gmap string Value).
Abbreviation Results := (gmap string (list Entry)).

(** ** Effects: the query log, exceptions and fuel *)

Inductive Outcome (A : Type) :=
| OutOfFuel
| Raised (e : Exception) (log : Log)
| Returned (a : A) (log : Log).
Arguments OutOfFuel {A}.
Arguments Raised {A} e log.
Arguments Returned {A} a log.

Definition M (A : Type) : Type := Log -> Outcome A.

Definition ret {A} (a : A) : M A := fun log => Returned a log.

Definition raise {A} (e : Exception) : M A := fun log => Raised e log.

Definition bind {A B} (c : M A) (k : A -> M B) : M B :=
  fun log =>
    match c log with
    | OutOfFuel => OutOfFuel
    | Raised e log' => Raised e log'
    | Returned a log' => k a log'
    end.

Notation "x <- c ;; k" := (bind c (fun x => k))
  (at level 100, c at next level, right associativity).

(** [for x in xs: s = body x s] *)
Fixpoint for_each {A S} (xs : list A) (body : A -> S -> M S) (s : S) : M S :=
  match xs with
  | [] => ret s
  | x :: xs' => s' <- body x s ;; for_each xs' body s'
  end.

(** [rrset[0]] *)
Definition item0 (r : RRset) : M Rdata :=
  match rrset_items r with
  | [] => raise IndexError
  | d :: _ => ret d
  end.

(** Reading an attribute that may be absent. *)
Definition attr {A} (o : option A) : M A :=
  match o with
  | None => raise AttributeError
  | Some a => ret a
  end.

Definition ROOT_SERVERS : list string :=
  [ "198.41.0.4";
    "199.9.14.201";
    "192.33.4.12";
    "199.7.91.13";
    "192.203.230.10";
    "192.5.5.241";
    "192.112.36.4";
    "198.97.190.53";
    "192.36.148.17";
    "192.58.128.30";
    "193.0.14.129";
    "199.7.83.42";
    "202.12.27.33" ].

(** The state of the [while] loop of [lookup] after an iteration that did not
    return, or the message an iteration returned. *)
Inductive Body :=
| Continue (response : option Message) (servers_to_query : list string)
| Return (response : Message).

Section Resolver.

(** [dns.name.from_text]: [None] when the text is not a valid domain name
    (the library raises). *)
Variable from_text : string -> option Name.

(** [dns.query.udp]: the message received, or [None]. *)
Variable udp : Log -> Query -> option Message.

(** Lines 96-97: build the query, send it, three seconds of timeout. *)
Definition send (target_name : Name) (qtype : Z) (s : string)
  : M (option Message) :=
  fun log =>
    let q := mkQuery target_name qtype s 3 in
    Returned (udp log q) (log ++ [q]).

(** [dns.name.from_text] as a call that may raise. *)
Definition name_from_text (text : string) : M Name :=
  match from_text text with
  | None => raise SyntaxError
  | Some n => ret n
  end.

(** [response.answer.extend(more)] *)
Definition extend_answer (response : Message) (more : list RRset) : Message :=
  mkMessage (answer response ++ more) (authority response) (additional response).

(** Lines 104-116: the alias chase on a response with answers.
    [lookup] is the resolver used for the recursive calls. *)
Definition chase (lookup : Name -> Z -> M (option Message))
    (response : Message) (qtype : Z) : M Message :=
  cname_response <-
    for_each (answer response) (fun a cname_response =>
      for_each (rrset_items a) (fun answer cname_response =>
        if rdtype answer =? rdatatype.CNAME then
          cname_target <- attr (target answer) ;;
          lookup cname_target qtype
        else ret cname_response) cname_response) None ;;
  match cname_response with
  | Some cname_response => ret (extend_answer response (answer cname_response))
  | None => ret response
  end.

(** Lines 118-122: the addresses taken from the additional section. *)
Definition additional_servers (response : Message) : M (list string) :=
  for_each (additional response) (fun record (next_servers : list string) =>
    r0 <- item0 record ;;
    if rdtype r0 =? rdatatype.A then ret (next_servers ++ [to_text r0])
    else ret next_servers) [].

(** Lines 133-135: the addresses taken from a nameserver's resolution. *)
Definition append_addresses (next_response : Message)
    (servers_to_query : list string) : M (list string) :=
  for_each (answer next_response) (fun answer (servers_to_query : list string) =>
    if rrset_rdtype answer =? rdatatype.A then
      a0 <- item0 answer ;;
      ret (servers_to_query ++ [to_text a0])
    else ret servers_to_query) servers_to_query.

(** Lines 126-135: the nameservers of the authority section, resolved. *)
Definition authority_servers (lookup : Name -> Z -> M (option Message))
    (response : Message) (servers_to_query : list string) : M (list string) :=
  for_each (authority response) (fun authority (servers_to_query : list string) =>
    a0 <- item0 authority ;;
    if negb (rdtype a0 =? rdatatype.SOA) then
      let next_target_name := to_text a0 in
      n <- name_from_text next_target_name ;;
      next_response <- lookup n rdatatype.A ;;
      match next_response with
      | Some next_response => append_addresses next_response servers_to_query
      | None => ret servers_to_query
      end
    else ret servers_to_query) servers_to_query.

(** Lines 118-138: the candidate list for the next iteration. *)
Definition referral (lookup : Name -> Z -> M (option Message))
    (response : Message) (servers_to_query : list string) : M (list string) :=
  next_servers <- additional_servers response ;;
  match next_servers with
  | [] => authority_servers lookup response servers_to_query
  | _ :: _ => ret next_servers
  end.

(** Lines 93-138: one iteration of the [while] loop, [server] popped and
    [servers_to_query] the rest. *)
Definition loop_body (lookup : Name -> Z -> M (option Message))
    (target_name : Name) (qtype : Z)
    (server : string) (servers_to_query : list string) : M Body :=
  response <- send target_name qtype server ;;
  match response with
  | None => ret (Continue None servers_to_query)
  | Some response =>
      match answer response with
      | _ :: _ =>
          response' <- chase lookup response qtype ;;
          ret (Return response')
      | [] =>
          servers' <- referral lookup response servers_to_query ;;
          ret (Continue (Some response) servers')
      end
  end.

(** Lines 92-140: the [while] loop, at most [k] iterations.  [response] is
    the local variable of that name: unbound ([None]) before the first
    iteration, then the result of the latest query. *)
Fixpoint lookup_loop (lookup : Name -> Z -> M (option Message)) (k : nat)
    (target_name : Name) (qtype : Z) (servers_to_query : list string)
    (response : option (option Message)) : M (option Message) :=
  match servers_to_query with
  | [] =>
      match response with
      | None => raise UnboundLocalError
      | Some response => ret response
      end
  | server :: servers_to_query =>
      match k with
      | O => fun _ => OutOfFuel
      | S k' =>
          b <- loop_body lookup target_name qtype server servers_to_query ;;
          match b with
          | Return response => ret (Some response)
          | Continue response servers_to_query =>
              lookup_loop lookup k' target_name qtype servers_to_query
                (Some response)
          end
      end
  end.

(** [lookup]: [fuel] bounds the depth of the recursive calls and the number
    of iterations of each loop. *)
Fixpoint lookup (fuel : nat) (target_name : Name) (qtype : Z)
  : M (option Message) :=
  match fuel with
  | O => fun _ => OutOfFuel
  | S n => lookup_loop (lookup n) fuel target_name qtype ROOT_SERVERS None
  end.

(** [response.answer] on what [lookup] returned. *)
Definition answer_of (response : option Message) : M (list RRset) :=
  match response with
  | None => raise AttributeError
  | Some response => ret (answer response)
  end.

(** Lines 44-47. *)
Definition cname_entries (name : string) (section : list RRset)
  : M (list Entry) :=
  for_each section (fun answers (cnames : list Entry) =>
    for_each (rrset_items answers) (fun answer (cnames : list Entry) =>
      ret (cnames ++ [ {[ "name" := VRdata answer; "alias" := VStr name ]} ]))
      cnames) [].

(** Lines 50-55 and 58-63: the address entries of type code [code]. *)
Definition address_entries (code : Z) (section : list RRset)
  : M (list Entry) :=
  for_each section (fun answers (records : list Entry) =>
    let a_name := rrset_name answers in
    for_each (rrset_items answers) (fun answer (records : list Entry) =>
      if rdtype answer =? code then
        ret (records ++
               [ {[ "name" := VName a_name; "address" := VStr (to_text answer) ]} ])
      else ret records) records) [].

(** Lines 66-73. *)
Definition mx_entries (section : list RRset) : M (list Entry) :=
  for_each section (fun answers (mxrecords : list Entry) =>
    let mx_name := rrset_name answers in
    for_each (rrset_items answers) (fun answer (mxrecords : list Entry) =>
      if rdtype answer =? 15 then
        p <- attr (preference answer) ;;
        e <- attr (exchange answer) ;;
        ret (mxrecords ++
               [ {[ "name" := VName mx_name; "preference" := VInt p;
                    "exchange" := VStr (name_text e) ]} ])
      else ret mxrecords) mxrecords) [].

Definition collect_results (fuel : nat) (name : string) : M Results :=
  let full_response : Results := ∅ in
  target_name <- name_from_text name ;;
  response <- lookup fuel target_name rdatatype.CNAME ;;
  section <- answer_of response ;;
  cnames <- cname_entries name section ;;
  response <- lookup fuel target_name rdatatype.A ;;
  section <- answer_of response ;;
  arecords <- address_entries 1 section ;;
  response <- lookup fuel target_name rdatatype.AAAA ;;
  section <- answer_of response ;;
  aaaarecords <- address_entries 28 section ;;
  response <- lookup fuel target_name rdatatype.MX ;;
  section <- answer_of response ;;
  mxrecords <- mx_entries section ;;
  let full_response := <["CNAME" := cnames]> full_response in
  let full_response := <["A" := arecords]> full_response in
  let full_response := <["AAAA" := aaaarecords]> full_response in
  let full_response := <["MX" := mxrecords]> full_response in
  ret full_response.

End Resolver.

Arguments send udp target_name qtype s log /.

(** ** Statements of the specification, for comparison with the code *)

(** The query that [lookup] sends to [server]. *)
Definition query_for (target_name : Name) (qtype : Z) (server : string) : Query :=
  mkQuery target_name qtype server 3.

(** The address of an rrset as the referral code reads it: the text of its
    first record, when that record is of type A. *)
Definition first_address (record : RRset) : option string :=
  match rrset_items record with
  | d :: _ => if decide (rdtype d = rdatatype.A) then Some (to_text d) else None
  | [] => None
  end.

Definition first_addresses (section : list RRset) : list string :=
  omap first_address section.

(** The same for the answer of a nameserver's resolution, where the code
    tests the type of the rrset. *)
Definition answer_address (rs : RRset) : option string :=
  if decide (rrset_rdtype rs = rdatatype.A)
  then to_text <$> head (rrset_items rs)
  else None.

Definition answer_addresses (next_response : option Message) : list string :=
  match next_response with
  | Some m => omap answer_address (answer m)
  | None => []
  end.

(** Following the spec's words: every ADDRESS-type record of the additional
    section, in order. *)
Definition spec_additional_addresses (response : Message) : list string :=
  to_text <$>
    filter (λ d, rdtype d = rdatatype.A)
      (concat (rrset_items <$> additional response)).

(** Following the spec's words: every address that a resolution returned. *)
Definition spec_resulting_addresses (next_response : option Message)
  : list string :=
  match next_response with
  | Some m =>
      to_text <$>
        filter (λ d, rdtype d = rdatatype.A) (concat (rrset_items <$> answer m))
  | None => []
  end.

(** Following the spec's words: every authority record that is not a
    start-of-authority is resolved, and every resulting address appended. *)
Definition spec_authority_servers (from_text : string -> option Name)
    (lookup : Name -> Z -> M (option Message))
    (response : Message) (servers_to_query : list string) : M (list string) :=
  for_each
    (filter (λ d, rdtype d ≠ rdatatype.SOA)
       (concat (rrset_items <$> authority response)))
    (fun d (servers : list string) =>
       n <- name_from_text from_text (to_text d) ;;
       next_response <- lookup n rdatatype.A ;;
       ret (servers ++ spec_resulting_addresses next_response))
    servers_to_query.

(** Following the spec's words: every alias record of the answer section is
    chased and the answers of all the chases are appended. *)
Definition spec_chase (lookup : Name -> Z -> M (option Message))
    (response : Message) (qtype : Z) : M Message :=
  more <-
    for_each
      (filter (λ d, rdtype d = rdatatype.CNAME)
         (concat (rrset_items <$> answer response)))
      (fun d (more : list RRset) =>
         cname_target <- attr (target d) ;;
         sub <- lookup cname_target qtype ;;
         ret (more ++ match sub with Some m => answer m | None => [] end))
      [] ;;
  ret (extend_answer response more).

(** What the code does with the authority section, as a relation: one rule
    per case of the loop body.  Only the first record of an rrset is read;
    a first record that is not a start-of-authority has its text resolved for
    type A, and the first address of every A-type rrset of that answer is
    appended. *)
Inductive authority_run (from_text : string -> option Name)
    (lookup : Name -> Z -> M (option Message))
  : list RRset -> list string -> Log -> list string -> Log -> Prop :=
| run_done servers log :
    authority_run from_text lookup [] servers log servers log
| run_soa rs a0 more section servers log servers' log' :
    rrset_items rs = a0 :: more ->
    rdtype a0 = rdatatype.SOA ->
    authority_run from_text lookup section servers log servers' log' ->
    authority_run from_text lookup (rs :: section) servers log servers' log'
| run_nameserver rs a0 more n next_response log1
    section servers log servers' log' :
    rrset_items rs = a0 :: more ->
    rdtype a0 ≠ rdatatype.SOA ->
    from_text (to_text a0) = Some n ->
    lookup n rdatatype.A log = Returned next_response log1 ->
    Forall (λ rs, rrset_rdtype rs = rdatatype.A -> rrset_items rs ≠ [])
      (match next_response with Some m => answer m | None => [] end) ->
    authority_run from_text lookup section
      (servers ++ answer_addresses next_response) log1 servers' log' ->
    authority_run from_text lookup (rs :: section) servers log servers' log'.

(** A response that gives the resolver no new candidate: no A record in the
    additional section, nothing but start-of-authority records in the
    authority section (and no empty rrset, as in every parsed message). *)
Definition no_new_candidates (r : Message) : Prop :=
  Forall (λ rs, rrset_items rs ≠ [] ∧
                Forall (λ d, rdtype d ≠ rdatatype.A) (rrset_items rs))
    (additional r) ∧
  Forall (λ rs, rrset_items rs ≠ [] ∧
                Forall (λ d, rdtype d = rdatatype.SOA) (rrset_items rs))
    (authority r).

(** Two rrsets with the same first record (or both empty). *)
Definition same_first (a b : RRset) : Prop :=
  head (rrset_items a) = head (rrset_items b).

(** The same, for rrsets whose own type is read as well. *)
Definition same_typed_first (a b : RRset) : Prop :=
  rrset_rdtype a = rrset_rdtype b ∧ same_first a b.

(** Two resolutions that end alike up to the records behind the first one of
    each answer rrset. *)
Definition agree_on_firsts (o o' : Outcome (option Message)) : Prop :=
  match o, o' with
  | OutOfFuel, OutOfFuel => True
  | Raised e l, Raised e' l' => e = e' ∧ l = l'
  | Returned None l, Returned None l' => l = l'
  | Returned (Some m) l, Returned (Some m') l' =>
      l = l' ∧ Forall2 same_typed_first (answer m) (answer m')
  | _, _ => False
  end.

(** The responses received for the queries of a log, replayed in order. *)
Fixpoint responses_seen (udp : Log -> Query -> option Message)
    (before log : Log) : list Message :=
  match log with
  | [] => []
  | q :: log' =>
      match udp before q with
      | Some r => [r]
      | None => []
      end ++ responses_seen udp (before ++ [q]) log'
  end.

Definition last_seen (udp : Log -> Query -> option Message) (log : Log)
  : option Message :=
  last (responses_seen udp [] log).

(** ** Sample records, messages and networks *)

Definition a_record (address : string) : Rdata :=
  mkRdata rdatatype.A address None None None.

Definition cname_record (t : string) : Rdata :=
  mkRdata rdatatype.CNAME t (Some (mkName t)) None None.

Definition ns_record (t : string) : Rdata :=
  mkRdata rdatatype.NS t (Some (mkName t)) None None.

Definition rrset_of (owner : string) (d : Rdata) (more : list Rdata) : RRset :=
  mkRRset (mkName owner) (rdtype d) (d :: more).

Definition answer_message (section : list RRset) : Message :=
  mkMessage section [] [].

Definition empty_message : Message := mkMessage [] [] [].

(** A name constructor for the examples: text with an empty inner label
    (two dots in a row) is refused. *)
Fixpoint empty_label (text : string) : bool :=
  match text with
  | EmptyString => false
  | String _ rest => String.prefix ".." text || empty_label rest
  end.

Definition sample_from_text (text : string) : option Name :=
  if empty_label text then None else Some (mkName text).

Definition www : Name := mkName "www.example.com.".

Definition first_root : string := "198.41.0.4".

(** Only the first root server answers; [zone] maps the name asked to the
    message it gives. *)
Definition first_root_only (zone : string -> option Message)
  : Log -> Query -> option Message :=
  fun _ q =>
    if String.eqb (q_where q) first_root then zone (name_text (q_name q))
    else None.

(** Every server answers with an empty message. *)
Definition net_empty : Log -> Query -> option Message :=
  fun _ _ => Some empty_message.

Definition address_of_b : RRset := rrset_of "b.example.com." (a_record "10.0.0.2") [].

Definition address_of_c : RRset := rrset_of "c.example.com." (a_record "10.0.0.3") [].

(** One name with two alias records, each target with its own address. *)
Definition two_aliases : Message :=
  answer_message
    [ rrset_of "www.example.com." (cname_record "b.example.com.")
        [cname_record "c.example.com."] ].

Definition net_two_aliases : Log -> Query -> option Message :=
  first_root_only (fun n =>
    if String.eqb n "www.example.com." then Some two_aliases
    else if String.eqb n "b.example.com." then
      Some (answer_message [address_of_b])
    else if String.eqb n "c.example.com." then
      Some (answer_message [address_of_c])
    else None).

(** A referral whose additional section gives two addresses for the one
    nameserver of the authority section. *)
Definition glue_referral : Message :=
  mkMessage []
    [ rrset_of "example.com." (ns_record "ns1.example.com.") [] ]
    [ rrset_of "ns1.example.com." (a_record "10.0.0.1") [a_record "10.0.0.2"] ].

(** The same referral with the second address left out. *)
Definition glue_referral_first : Message :=
  mkMessage []
    [ rrset_of "example.com." (ns_record "ns1.example.com.") [] ]
    [ rrset_of "ns1.example.com." (a_record "10.0.0.1") [] ].

Definition net_glue : Log -> Query -> option Message :=
  first_root_only (fun _ => Some glue_referral).

(** A referral without addresses: two nameservers in one rrset. *)
Definition ns_referral : Message :=
  mkMessage []
    [ rrset_of "example.com." (ns_record "ns1.example.net.")
        [ns_record "ns2.example.net."] ]
    [].

Definition net_ns_only : Log -> Query -> option Message :=
  first_root_only (fun n =>
    if String.eqb n "www.example.com." then Some ns_referral
    else if String.eqb n "ns1.example.net." then
      Some (answer_message
              [rrset_of "ns1.example.net." (a_record "10.0.0.1")
                 [a_record "10.0.0.9"]])
    else if String.eqb n "ns2.example.net." then
      Some (answer_message [rrset_of "ns2.example.net." (a_record "10.0.0.2") []])
    else None).

(** A server that answers every question about a host with its address
    record, whatever type was asked. *)
Definition net_address_only : Log -> Query -> option Message :=
  first_root_only (fun n =>
    if String.eqb n "host.example.com." then
      Some (answer_message
              [rrset_of "host.example.com." (a_record "192.0.2.1") []])
    else None).

(** A resolver for the examples that knows one nameserver. *)
Definition one_nameserver (m : Message) : Name -> Z -> M (option Message) :=
  fun _ _ => ret (Some m).

(** ** Output: [print_results] and [main] *)

Definition FORMATS : list (string * string) :=
  [ ("CNAME", "{alias} is an alias for {name}");
    ("A", "{name} has address {address}");
    ("AAAA", "{name} has IPv6 address {address}");
    ("MX", "{name} mail is handled by {preference} {exchange}") ].

(** Python's [str] on the values that the entries hold. *)
Definition str (v : Value) : string :=
  match v with
  | VStr s => s
  | VInt z => pretty z
  | VName n => name_text n
  | VRdata r => to_text r
  end.

Inductive FormatError :=
| KeyError (key : string)
| ValueError.

Definition is_char (c : Ascii.ascii) (s : string) : bool :=
  String.eqb (String c EmptyString) s.

(** [str.format] with keyword arguments, for templates whose replacement fields are plain
    keys, as those of [FORMATS] are (no escaped brace, conversion or format
    specification).  [field] is the key being read, if any.  The template is
    read from the left: a key that is missing raises where its field ends. *)
Fixpoint format_fields (fmt : string) (field : option string) (kwargs : Entry)
  : FormatError + string :=
  match fmt with
  | EmptyString =>
      match field with
      | None => inr EmptyString
      | Some _ => inl ValueError
      end
  | String c rest =>
      match field with
      | None =>
          if is_char c "{" then format_fields rest (Some EmptyString) kwargs
          else if is_char c "}" then inl ValueError
          else
            match format_fields rest None kwargs with
            | inl e => inl e
            | inr s => inr (String c s)
            end
      | Some key =>
          if is_char c "}" then
            match kwargs !! key with
            | None => inl (KeyError key)
            | Some v =>
                match format_fields rest None kwargs with
                | inl e => inl e
                | inr s => inr (str v +:+ s)
                end
            end
          else format_fields rest (Some (key +:+ String c EmptyString)) kwargs
      end
  end.

Definition format (fmt : string) (kwargs : Entry) : FormatError + string :=
  format_fields fmt None kwargs.

(** What a printing function leaves: the lines on standard output, and the
    exception if one was raised. *)
Inductive Printed :=
| PrintOk (stdout : list string)
| PrintRaised (e : FormatError) (stdout : list string).

(** Lines 150-151: the inner loop. *)
Fixpoint print_each (fmt_str : string) (results : list Entry)
    (stdout : list string) : Printed :=
  match results with
  | [] => PrintOk stdout
  | result :: results' =>
      match format fmt_str result with
      | inl e => PrintRaised e stdout
      | inr line => print_each fmt_str results' (stdout ++ [line])
      end
  end.

(** Lines 149-151 over a list of formats; [results.get(rtype, [])] is
    [default [] (results !! rtype)]. *)
Fixpoint print_formats (formats : list (string * string)) (results : Results)
    (stdout : list string) : Printed :=
  match formats with
  | [] => PrintOk stdout
  | (rtype, fmt_str) :: formats' =>
      match print_each fmt_str (default [] (results !! rtype)) stdout with
      | PrintRaised e out => PrintRaised e out
      | PrintOk out => print_formats formats' results out
      end
  end.

Definition print_results (results : Results) (stdout : list string) : Printed :=
  print_formats FORMATS results stdout.

(** How a run of [main] ends: the queries sent and the lines printed, and
    the exception if one was raised. *)
Inductive MainOutcome :=
| MainOutOfFuel
| MainRaised (e : Exception + FormatError) (log : Log) (stdout : list string)
| MainReturned (log : Log) (stdout : list string).

(** Lines 166-167, on the parsed arguments: the names ([nargs="+"], so at
    least one) and the verbosity flag, which nothing reads. *)
Fixpoint main (from_text : string -> option Name)
    (udp : Log -> Query -> option Message) (fuel : nat)
    (name : list string) (verbose : bool)
    (log : Log) (stdout : list string) : MainOutcome :=
  match name with
  | [] => MainReturned log stdout
  | a_domain_name :: name' =>
      match collect_results from_text udp fuel a_domain_name log with
      | OutOfFuel => MainOutOfFuel
      | Raised e log' => MainRaised (inl e) log' stdout
      | Returned results log' =>
          match print_results results stdout with
          | PrintRaised e stdout' => MainRaised (inr e) log' stdout'
          | PrintOk stdout' =>
              main from_text udp fuel name' verbose log' stdout'
          end
      end
  end.

(** ** Notions used in the further properties *)

(** The entries that [collect_results] builds. *)
Definition cname_entry (name : string) (d : Rdata) : Entry :=
  {[ "name" := VRdata d; "alias" := VStr name ]}.

Definition address_entry (owner : Name) (d : Rdata) : Entry :=
  {[ "name" := VName owner; "address" := VStr (to_text d) ]}.

Definition mx_entry (owner : Name) (d : Rdata) : option Entry :=
  match preference d, exchange d with
  | Some p, Some e =>
      Some {[ "name" := VName owner; "preference" := VInt p;
              "exchange" := VStr (name_text e) ]}
  | _, _ => None
  end.

(** The entries of a section: every record, the records of one type, the
    mail exchangers. *)
Definition all_entries (name : string) (section : list RRset) : list Entry :=
  concat ((fun answers => cname_entry name <$> rrset_items answers) <$> section).

Definition typed_entries (code : Z) (section : list RRset) : list Entry :=
  concat
    ((fun answers =>
        address_entry (rrset_name answers)
          <$> filter (fun d => rdtype d = code) (rrset_items answers))
       <$> section).

Definition exchanger_entries (section : list RRset) : list Entry :=
  concat
    ((fun answers =>
        omap (mx_entry (rrset_name answers))
          (filter (fun d => rdtype d = 15) (rrset_items answers)))
       <$> section).

(** The lines that [print_results] writes for them. *)
Definition cname_line (name : string) (d : Rdata) : string :=
  name +:+ " is an alias for " +:+ to_text d.

Definition address_line (owner : Name) (d : Rdata) : string :=
  name_text owner +:+ " has address " +:+ to_text d.

Definition address6_line (owner : Name) (d : Rdata) : string :=
  name_text owner +:+ " has IPv6 address " +:+ to_text d.

Definition mx_line (owner : Name) (d : Rdata) : option string :=
  match preference d, exchange d with
  | Some p, Some e =>
      Some (name_text owner +:+ " mail is handled by " +:+ pretty p +:+ " "
              +:+ name_text e)
  | _, _ => None
  end.

Definition alias_lines (name : string) (section : list RRset) : list string :=
  concat ((fun answers => cname_line name <$> rrset_items answers) <$> section).

Definition typed_lines (line : Name -> Rdata -> string) (code : Z)
    (section : list RRset) : list string :=
  concat
    ((fun answers =>
        line (rrset_name answers)
          <$> filter (fun d => rdtype d = code) (rrset_items answers))
       <$> section).

Definition exchanger_lines (section : list RRset) : list string :=
  concat
    ((fun answers =>
        omap (mx_line (rrset_name answers))
          (filter (fun d => rdtype d = 15) (rrset_items answers)))
       <$> section).

(** The mail-exchanger records of a section carry their two fields. *)
Definition exchangers_complete (section : list RRset) : Prop :=
  Forall (fun rs =>
            Forall (fun d => rdtype d = 15 ->
                             is_Some (preference d) /\ is_Some (exchange d))
              (rrset_items rs))
    section.

(** The dictionary built from the answers of the four lookups. *)
Definition results_of (name : string) (r1 r2 r3 r4 : Message) : Results :=
  {[ "CNAME" := all_entries name (answer r1);
     "A" := typed_entries 1 (answer r2);
     "AAAA" := typed_entries 28 (answer r3);
     "MX" := exchanger_entries (answer r4) ]}.

(** The body of the alias loop of [chase], lines 107-110. *)
Definition alias_step (lookup : Name -> Z -> M (option Message)) (qtype : Z) (answer : Rdata)
    (cname_response : option Message) : M (option Message) :=
  if rdtype answer =? rdatatype.CNAME then
    cname_target <- attr (target answer) ;;
    lookup cname_target qtype
  else ret cname_response.

(** No alias record in a section. *)
Definition alias_free (section : list RRset) : Prop :=
  Forall (fun rs => Forall (fun d => rdtype d <> rdatatype.CNAME) (rrset_items rs))
    section.

(** A message as the parser gives it: no rrset is empty, and the alias
    records of the answer section have a target. *)
Definition well_formed (r : Message) : Prop :=
  Forall (fun rs => rrset_items rs <> []) (answer r) /\
  Forall (fun rs => rrset_items rs <> []) (authority r) /\
  Forall (fun rs => rrset_items rs <> []) (additional r) /\
  Forall (fun rs =>
            Forall (fun d => rdtype d = rdatatype.CNAME -> target d <> None)
              (rrset_items rs))
    (answer r).

(** A query for type [qtype] or for an address, with the timeout of 3. *)
Definition asks (qtype : Z) (q : Query) : Prop :=
  q_timeout q = 3 /\ (q_rdtype q = qtype \/ q_rdtype q = rdatatype.A).

(** A computation that raises only exceptions in [R], adds to the log only
    queries in [P] and returns only values in [Q]. *)
Definition sat {A} (R : Exception -> Prop) (P : Query -> Prop) (Q : A -> Prop)
    (c : M A) : Prop :=
  forall log,
    match c log with
    | OutOfFuel => True
    | Raised e log' => R e /\ exists new, log' = log ++ new /\ Forall P new
    | Returned a log' => Q a /\ exists new, log' = log ++ new /\ Forall P new
    end.

(** What the parser guarantees of the responses of a network, each part
    either holding or its failure being an exception that [R] allows: no
    rrset is empty, the alias records of the answers have a target, the text
    of the first record of an authority rrset, unless a start-of-authority,
    is a name. *)
Definition sections_filled (r : Message) : Prop :=
  Forall (fun rs => rrset_items rs <> []) (answer r) /\
  Forall (fun rs => rrset_items rs <> []) (authority r) /\
  Forall (fun rs => rrset_items rs <> []) (additional r).

Definition aliases_targeted (r : Message) : Prop :=
  Forall (fun rs =>
            Forall (fun d => rdtype d = rdatatype.CNAME -> target d <> None)
              (rrset_items rs))
    (answer r).

Definition nameservers_named (from_text : string -> option Name) (r : Message)
  : Prop :=
  Forall (fun rs => forall a0 more,
            rrset_items rs = a0 :: more ->
            rdtype a0 <> rdatatype.SOA ->
            from_text (to_text a0) <> None)
    (authority r).

(** The answer rrsets of what a lookup returned are not empty, unless
    [IndexError] is allowed. *)
Definition answers_filled (R : Exception -> Prop) (v : option Message) : Prop :=
  R IndexError \/
  forall m, v = Some m -> Forall (fun rs => rrset_items rs <> []) (answer m).

(** A resolution that needs no nameserver lookup and no alias chase: from
    the candidates [servers], silent servers and servers without news are
    passed over, referrals with addresses are followed, and a server answers
    with [r]. *)
Inductive resolves (udp : Log -> Query -> option Message)
    (target_name : Name) (qtype : Z)
  : list string -> Log -> Message -> Log -> Prop :=
| resolves_answer server rest log r :
    udp log (query_for target_name qtype server) = Some r ->
    answer r <> [] ->
    alias_free (answer r) ->
    resolves udp target_name qtype (server :: rest) log r
      (log ++ [query_for target_name qtype server])
| resolves_silent server rest log r log' :
    udp log (query_for target_name qtype server) = None ->
    resolves udp target_name qtype rest
      (log ++ [query_for target_name qtype server]) r log' ->
    resolves udp target_name qtype (server :: rest) log r log'
| resolves_nothing_new server rest log r0 r log' :
    udp log (query_for target_name qtype server) = Some r0 ->
    answer r0 = [] ->
    no_new_candidates r0 ->
    resolves udp target_name qtype rest
      (log ++ [query_for target_name qtype server]) r log' ->
    resolves udp target_name qtype (server :: rest) log r log'
| resolves_referral server rest log r0 r log' :
    udp log (query_for target_name qtype server) = Some r0 ->
    answer r0 = [] ->
    Forall (fun rs => rrset_items rs <> []) (additional r0) ->
    first_addresses (additional r0) <> [] ->
    resolves udp target_name qtype (first_addresses (additional r0))
      (log ++ [query_for target_name qtype server]) r log' ->
    resolves udp target_name qtype (server :: rest) log r log'.

(** More sample networks. *)

(** No server answers. *)
Definition net_silent : Log -> Query -> option Message := fun _ _ => None.

(** The answer that the delegated server gives. *)
Definition delegated_answer : Message :=
  answer_message [rrset_of "www.example.com." (a_record "192.0.2.7") []].

(** The first root server refers to 10.0.0.1, which answers. *)
Definition net_delegated : Log -> Query -> option Message :=
  fun _ q =>
    if String.eqb (q_where q) first_root then Some glue_referral
    else if String.eqb (q_where q) "10.0.0.1" then Some delegated_answer
    else None.

(** The first root server answers with one alias record, and with the
    address of the target when asked for the target. *)
Definition one_alias : Message :=
  answer_message
    [ rrset_of "www.example.com." (cname_record "host.example.com.") [] ].

Definition address_of_host : RRset :=
  rrset_of "host.example.com." (a_record "192.0.2.1") [].

Definition net_one_alias : Log -> Query -> option Message :=
  first_root_only (fun n =>
    if String.eqb n "www.example.com." then Some one_alias
    else if String.eqb n "host.example.com." then
      Some (answer_message [address_of_host])
    else None).

(** A referral to a nameserver whose name has an empty label. *)
Definition bad_referral : Message :=
  mkMessage [] [ rrset_of "example.com." (ns_record "ns..example.net.") [] ] [].

Definition net_bad_nameserver : Log -> Query -> option Message :=
  first_root_only (fun _ => Some bad_referral).

(** What [net_address_only] answers, and the queries of [collect_results]
    on it. *)
Definition host_answer : Message :=
  answer_message [rrset_of "host.example.com." (a_record "192.0.2.1") []].

Definition host : Name := mkName "host.example.com.".

Definition host_queries : Log :=
  [ query_for host rdatatype.CNAME first_root;
    query_for host rdatatype.A first_root;
    query_for host rdatatype.AAAA first_root;
    query_for host rdatatype.MX first_root ].

Definition host_lines : list string :=
  [ "host.example.com. is an alias for 192.0.2.1";
    "host.example.com. has address 192.0.2.1" ].

(** ** Properties *)

Section Properties.

Variable from_text : string -> option Name.
Variable udp : Log -> Query -> option Message.

Implicit Types (lookup : Name -> Z -> M (option Message)).
Implicit Types (log : Log) (servers rest : list string) (r : Message).

(** *** The monad and the loops *)

Lemma bind_returned {A B} (c : M A) (k : A -> M B) log a log' :
  c log = Returned a log' -> bind c k log = k a log'.
Proof. intros Hc. unfold bind. now rewrite Hc. Qed.

Lemma bind_inv {A B} (c : M A) (k : A -> M B) log b log' :
  bind c k log = Returned b log' ->
  exists a l, c log = Returned a l /\ k a l = Returned b log'.
Proof.
  unfold bind. destruct (c log) as [ | e l | a l ]; try discriminate.
  intros Hk. now exists a, l.
Qed.

Lemma bind_cong {A B} (c c' : M A) (k k' : A -> M B) log :
  c log = c' log -> (forall a l, k a l = k' a l) ->
  bind c k log = bind c' k' log.
Proof.
  intros Hc Hk. unfold bind. rewrite Hc.
  destruct (c' log); try reflexivity. apply Hk.
Qed.

Lemma for_each_app {A S} (xs ys : list A) (body : A -> S -> M S) (s : S) log :
  for_each (xs ++ ys) body s log =
  bind (for_each xs body s) (for_each ys body) log.
Proof.
  revert s log. induction xs as [ | x xs IH ]; intros s log; simpl.
  - reflexivity.
  - unfold bind. destruct (body x s log) as [ | e l | s' l ]; try reflexivity.
    rewrite IH. reflexivity.
Qed.

(** A loop whose body leaves the state alone leaves it alone. *)
Lemma for_each_skip {A S} (xs : list A) (body : A -> S -> M S) (s : S) log :
  Forall (fun x => forall s' l, body x s' l = Returned s' l) xs ->
  for_each xs body s log = Returned s log.
Proof.
  induction 1 as [ | x xs Hx _ IH ]; simpl; [ reflexivity | ].
  unfold bind. now rewrite Hx.
Qed.

Lemma lookup_loop_step lookup k target_name qtype server rest prev log :
  lookup_loop from_text udp lookup (S k) target_name qtype (server :: rest) prev log =
  match loop_body from_text udp lookup target_name qtype server rest log with
  | OutOfFuel => OutOfFuel
  | Raised e l => Raised e l
  | Returned (Return r) l => Returned (Some r) l
  | Returned (Continue v servers') l =>
      lookup_loop from_text udp lookup k target_name qtype servers' (Some v) l
  end.
Proof.
  simpl. unfold bind.
  destruct (loop_body _ _ _ _ _ _ _ _) as [ | e l | [ v s' | r ] l ]; reflexivity.
Qed.

Lemma lookup_loop_exhausted lookup k target_name qtype v log :
  lookup_loop from_text udp lookup k target_name qtype [] (Some v) log =
  Returned v log.
Proof. destruct k; reflexivity. Qed.

Lemma loop_body_failed lookup target_name qtype server rest log :
  udp log (query_for target_name qtype server) = None ->
  loop_body from_text udp lookup target_name qtype server rest log =
  Returned (Continue None rest) (log ++ [query_for target_name qtype server]).
Proof.
  intros Hq. unfold loop_body, bind, send, query_for in *. now rewrite Hq.
Qed.

Lemma loop_body_referral lookup target_name qtype server rest log r :
  udp log (query_for target_name qtype server) = Some r ->
  answer r = [] ->
  loop_body from_text udp lookup target_name qtype server rest log =
  bind (referral from_text lookup r rest)
       (fun servers' => ret (Continue (Some r) servers'))
       (log ++ [query_for target_name qtype server]).
Proof.
  intros Hq Ha. unfold loop_body, send, query_for in *.
  unfold bind at 1. now rewrite Hq, Ha.
Qed.

Lemma loop_body_answer lookup target_name qtype server rest log r :
  udp log (query_for target_name qtype server) = Some r ->
  answer r <> [] ->
  loop_body from_text udp lookup target_name qtype server rest log =
  bind (chase lookup r qtype) (fun response' => ret (Return response'))
       (log ++ [query_for target_name qtype server]).
Proof.
  intros Hq Ha. unfold loop_body, send, query_for in *.
  unfold bind at 1. rewrite Hq. now destruct (answer r).
Qed.

(** *** Failed queries *)


(** *** Exhaustion *)


(** *** The result aggregator *)

(** C8. A name that [dns.name.from_text] refuses makes [collect_results]
    raise at once: whatever the fuel and the network, the log is the one it
    was called with, so no lookup sent anything, and no result is built. *)
Theorem collect_results_rejects_malformed_name fuel name log :
  from_text name = None ->
  collect_results from_text udp fuel name log = Raised SyntaxError log.
Proof.
  intros Hn. unfold collect_results, name_from_text, bind. now rewrite Hn.
Qed.

(** C9. Whenever [collect_results] returns, the dictionary has the four keys
    CNAME, A, AAAA and MX and no other, each bound to a list of entries. *)
Theorem collect_results_keys fuel name log (d : Results) log' :
  collect_results from_text udp fuel name log = Returned d log' ->
  dom d = {[ "CNAME"; "A"; "AAAA"; "MX" ]} /\
  exists cnames arecords aaaarecords mxrecords,
    d !! "CNAME" = Some cnames /\ d !! "A" = Some arecords /\
    d !! "AAAA" = Some aaaarecords /\ d !! "MX" = Some mxrecords.
Proof.
  unfold collect_results. intros H.
  repeat (apply bind_inv in H; destruct H as (? & ? & _ & H)).
  inversion H; subst; clear H. split.
  - rewrite !dom_insert_L, dom_empty_L. set_solver.
  - do 4 eexists. repeat split; by simplify_map_eq.
Qed.

(** *** Referrals: the additional section *)

Lemma rdtype_eqb_decide (d : Rdata) (code : Z) {T} (x y : T) :
  (if rdtype d =? code then x else y) =
  (if decide (rdtype d = code) then x else y).
Proof.
  destruct (Z.eqb_spec (rdtype d) code); destruct (decide _); congruence.
Qed.

Lemma additional_loop (section : list RRset) (next_servers : list string) log :
  Forall (fun rs => rrset_items rs <> []) section ->
  for_each section (fun record (next_servers : list string) =>
    r0 <- item0 record ;;
    if rdtype r0 =? rdatatype.A then ret (next_servers ++ [to_text r0])
    else ret next_servers) next_servers log =
  Returned (next_servers ++ first_addresses section) log.
Proof.
  intros Hne. revert next_servers.
  induction Hne as [ | rs section Hrs _ IH ]; intros next_servers; simpl.
  - now rewrite app_nil_r.
  - unfold bind, item0, first_addresses, first_address at 1. simpl.
    destruct (rrset_items rs) as [ | d more ]; [ congruence | ]. simpl.
    rewrite rdtype_eqb_decide. destruct (decide _); simpl.
    + rewrite IH. unfold first_addresses. now rewrite <- app_assoc.
    + apply IH.
Qed.

Lemma additional_servers_first_addresses r log :
  Forall (fun rs => rrset_items rs <> []) (additional r) ->
  additional_servers r log = Returned (first_addresses (additional r)) log.
Proof. intros Hne. unfold additional_servers. now rewrite additional_loop. Qed.

(** C2, as amended.  A response without answers in whose additional section
    some rrset starts with an A record replaces the candidate list by the
    texts of the first records of those rrsets: the remaining candidates are
    dropped, the authority section is not read and nothing else is queried. *)
Theorem referral_additional_replaces
    lookup k target_name qtype server rest prev log r :
  udp log (query_for target_name qtype server) = Some r ->
  answer r = [] ->
  Forall (fun rs => rrset_items rs <> []) (additional r) ->
  first_addresses (additional r) <> [] ->
  lookup_loop from_text udp lookup (S k) target_name qtype (server :: rest) prev log =
  lookup_loop from_text udp lookup k target_name qtype
    (first_addresses (additional r)) (Some (Some r))
    (log ++ [query_for target_name qtype server]).
Proof.
  intros Hq Ha Hne Hsome.
  rewrite lookup_loop_step, (loop_body_referral lookup _ _ _ rest _ _ Hq Ha).
  unfold referral, bind. rewrite additional_servers_first_addresses by assumption.
  now destruct (first_addresses (additional r)).
Qed.

(** *** Referrals: the authority section *)

Lemma append_addresses_answer (m : Message) servers log :
  Forall (fun rs => rrset_rdtype rs = rdatatype.A -> rrset_items rs <> [])
    (answer m) ->
  append_addresses m servers log =
  Returned (servers ++ answer_addresses (Some m)) log.
Proof.
  unfold append_addresses, answer_addresses. intros Hne. revert servers.
  induction Hne as [ | rs section Hrs _ IH ]; intros servers; simpl.
  - now rewrite app_nil_r.
  - unfold bind, answer_address at 1.
    destruct (Z.eqb_spec (rrset_rdtype rs) rdatatype.A) as [ HA | HA ];
      destruct (decide _); try congruence; [ | apply IH ].
    unfold item0. destruct (rrset_items rs) as [ | d more ]; [ now destruct Hrs | ].
    simpl. rewrite IH. now rewrite <- app_assoc.
Qed.

Lemma authority_run_servers lookup r servers log servers' log' :
  authority_run from_text lookup (authority r) servers log servers' log' ->
  authority_servers from_text lookup r servers log = Returned servers' log'.
Proof.
  unfold authority_servers.
  induction 1 as [ | rs a0 more section s l s' l' Hi Ht _ IH
                   | rs a0 more n nr l1 section s l s' l' Hi Ht Hn Hl Hne _ IH ];
    simpl; [ reflexivity | | ].
  - unfold bind at 1. unfold item0. rewrite Hi. simpl.
    unfold bind at 1. simpl. rewrite Ht. simpl. exact IH.
  - unfold bind at 1. unfold item0. rewrite Hi. simpl.
    unfold bind at 1. simpl.
    destruct (Z.eqb_spec (rdtype a0) rdatatype.SOA); [ congruence | ]. simpl.
    unfold name_from_text. rewrite Hn. unfold bind at 1. simpl.
    unfold bind at 1. rewrite Hl.
    destruct nr as [ m | ]; simpl in *.
    + rewrite append_addresses_answer by assumption. exact IH.
    + rewrite app_nil_r in IH. exact IH.
Qed.

Lemma append_addresses_returned (m : Message) servers log servers' log' :
  append_addresses m servers log = Returned servers' log' ->
  Forall (fun rs => rrset_rdtype rs = rdatatype.A -> rrset_items rs <> [])
    (answer m).
Proof.
  unfold append_addresses. generalize (answer m) as section.
  intros section. revert servers log.
  induction section as [ | rs section IH ]; intros servers log Hret;
    [ constructor | ].
  simpl in Hret. apply bind_inv in Hret. destruct Hret as (s1 & l1 & Hrs & Hrest).
  constructor; [ | eapply IH, Hrest ].
  intros HA Hnil. rewrite HA in Hrs. simpl in Hrs.
  unfold bind, item0 in Hrs. rewrite Hnil in Hrs. discriminate.
Qed.

(** The relation says no more than the code does: every normal run of the
    authority loop is an [authority_run]. *)
Lemma authority_servers_run lookup r servers log servers' log' :
  authority_servers from_text lookup r servers log = Returned servers' log' ->
  authority_run from_text lookup (authority r) servers log servers' log'.
Proof.
  unfold authority_servers. generalize (authority r) as section.
  intros section. revert servers log.
  induction section as [ | rs section IH ]; intros servers log Hret.
  - inversion Hret; subst. constructor.
  - simpl in Hret. apply bind_inv in Hret.
    destruct Hret as (s1 & l1 & Hrs & Hrest).
    apply bind_inv in Hrs. destruct Hrs as (a0 & l0 & Hitem & Hrs).
    unfold item0 in Hitem.
    destruct (rrset_items rs) as [ | d more ] eqn:Hi; [ discriminate | ].
    inversion Hitem; subst a0 l0; clear Hitem.
    destruct (Z.eqb_spec (rdtype d) rdatatype.SOA) as [ Hsoa | Hns ];
      simpl in Hrs.
    + inversion Hrs; subst s1 l1. eapply run_soa; eauto.
    + apply bind_inv in Hrs. destruct Hrs as (n & l2 & Hname & Hrs).
      unfold name_from_text in Hname.
      destruct (from_text (to_text d)) as [ n' | ] eqn:Hn; [ | discriminate ].
      inversion Hname; subst n' l2; clear Hname.
      apply bind_inv in Hrs. destruct Hrs as (nr & l3 & Hlookup & Hrs).
      destruct nr as [ m | ].
      * pose proof (append_addresses_returned _ _ _ _ _ Hrs) as Hne.
        rewrite (append_addresses_answer m servers l3 Hne) in Hrs.
        inversion Hrs; subst s1 l1.
        eapply run_nameserver; eauto.
      * inversion Hrs; subst s1 l1.
        eapply (run_nameserver _ _ rs d more n None l3); eauto;
          simpl; rewrite ?app_nil_r; eauto.
Qed.

Lemma authority_run_appends lookup section servers log servers' log' :
  authority_run from_text lookup section servers log servers' log' ->
  exists added, servers' = servers ++ added.
Proof.
  induction 1 as [ s | | ? ? ? ? nr ? ? s ? ? ? ? ? ? ? ? ? IH ].
  - exists []. now rewrite app_nil_r.
  - assumption.
  - destruct IH as [ added -> ].
    exists (answer_addresses nr ++ added). now rewrite app_assoc.
Qed.

(** C4, as amended.  A response without answers whose additional section
    gives no address has its authority section walked as [authority_run]
    says: per rrset the first record only, resolved for type A when it is
    not a start-of-authority, with the first address of each A-type rrset of
    that answer appended.  The candidates that remained stay at the front of
    the new list, and the loop goes on with it. *)
Theorem referral_authority_appends
    lookup k target_name qtype server rest prev log r servers' log' :
  udp log (query_for target_name qtype server) = Some r ->
  answer r = [] ->
  Forall (fun rs => rrset_items rs <> []) (additional r) ->
  first_addresses (additional r) = [] ->
  authority_run from_text lookup (authority r) rest
    (log ++ [query_for target_name qtype server]) servers' log' ->
  (exists added, servers' = rest ++ added) /\
  lookup_loop from_text udp lookup (S k) target_name qtype (server :: rest) prev log =
  lookup_loop from_text udp lookup k target_name qtype servers' (Some (Some r)) log'.
Proof.
  intros Hq Ha Hne Hnone Hrun. split.
  - eapply authority_run_appends, Hrun.
  - rewrite lookup_loop_step, (loop_body_referral lookup _ _ _ rest _ _ Hq Ha).
    unfold referral, bind.
    rewrite additional_servers_first_addresses, Hnone by assumption.
    now rewrite (authority_run_servers _ _ _ _ _ _ Hrun).
Qed.

(** *** Responses that add no candidate *)

Lemma first_addresses_none (section : list RRset) :
  Forall (fun rs => rrset_items rs <> [] /\
                    Forall (fun d => rdtype d <> rdatatype.A) (rrset_items rs))
    section ->
  first_addresses section = [].
Proof.
  induction 1 as [ | rs section [ _ Hrs ] _ IH ]; [ reflexivity | ].
  unfold first_addresses in *. cbn [omap list_omap]. rewrite IH.
  unfold first_address.
  destruct Hrs as [ | d more Hd _ ]; [ reflexivity | ].
  now destruct (decide _).
Qed.

Lemma referral_no_new_candidates lookup r servers log :
  no_new_candidates r ->
  referral from_text lookup r servers log = Returned servers log.
Proof.
  intros [ Hadd Hauth ]. unfold referral, bind.
  rewrite additional_servers_first_addresses, first_addresses_none; trivial.
  - unfold authority_servers. apply for_each_skip.
    eapply Forall_impl; [ exact Hauth | ].
    intros rs [ Hne Hsoa ] s' l. unfold bind, item0.
    destruct Hsoa as [ | d more Hd _ ]; [ congruence | ]. simpl.
    now rewrite Hd.
  - eapply Forall_impl; [ exact Hadd | ]. now intros rs [ Hne _ ].
Qed.

(** The queries of one invocation to a list of servers, in order. *)
Lemma queries_cons target_name qtype server (asked : list string) log :
  (log ++ [query_for target_name qtype server])
    ++ (query_for target_name qtype <$> asked) =
  log ++ (query_for target_name qtype <$> server :: asked).
Proof. now rewrite <- app_assoc. Qed.

Lemma lookup_loop_failed lookup k target_name qtype server rest prev log :
  udp log (query_for target_name qtype server) = None ->
  lookup_loop from_text udp lookup (S k) target_name qtype (server :: rest) prev log =
  lookup_loop from_text udp lookup k target_name qtype rest (Some None)
    (log ++ [query_for target_name qtype server]).
Proof.
  intros Hq. rewrite lookup_loop_step.
  now rewrite (loop_body_failed lookup _ _ _ rest _ Hq).
Qed.

Lemma lookup_loop_no_new_candidates
    lookup k target_name qtype server rest prev log r :
  udp log (query_for target_name qtype server) = Some r ->
  answer r = [] ->
  no_new_candidates r ->
  lookup_loop from_text udp lookup (S k) target_name qtype (server :: rest) prev log =
  lookup_loop from_text udp lookup k target_name qtype rest (Some (Some r))
    (log ++ [query_for target_name qtype server]).
Proof.
  intros Hq Ha Hno.
  rewrite lookup_loop_step, (loop_body_referral lookup _ _ _ rest _ _ Hq Ha).
  unfold bind. now rewrite referral_no_new_candidates.
Qed.

Lemma lookup_loop_answer lookup k target_name qtype server rest prev log r :
  udp log (query_for target_name qtype server) = Some r ->
  answer r <> [] ->
  lookup_loop from_text udp lookup (S k) target_name qtype (server :: rest) prev log =
  bind (chase lookup r qtype) (fun response => ret (Some response))
    (log ++ [query_for target_name qtype server]).
Proof.
  intros Hq Ha.
  rewrite lookup_loop_step, (loop_body_answer lookup _ _ _ rest _ _ Hq Ha).
  unfold bind. now destruct (chase _ _ _ _).
Qed.

(** When no response adds a candidate the loop walks down its list: either
    it asks every server and returns the last result, or it stops at the
    first answer and hands it to the alias chase. *)
Lemma lookup_loop_walks lookup target_name qtype :
  (forall l q r, udp l q = Some r -> no_new_candidates r) ->
  forall rest server k prev log,
    (length rest < k)%nat ->
    exists asked,
      asked `prefix_of` server :: rest /\
      ((asked = server :: rest /\
        exists v,
          (forall r, v = Some r -> answer r = []) /\
          lookup_loop from_text udp lookup k target_name qtype (server :: rest) prev log =
          Returned v (log ++ (query_for target_name qtype <$> asked)))
       \/
       (exists pre s r,
          asked = pre ++ [s] /\
          udp (log ++ (query_for target_name qtype <$> pre))
              (query_for target_name qtype s) = Some r /\
          answer r <> [] /\
          lookup_loop from_text udp lookup k target_name qtype (server :: rest) prev log =
          bind (chase lookup r qtype) (fun response => ret (Some response))
            (log ++ (query_for target_name qtype <$> asked)))).
Proof.
  intros Hnet rest.
  induction rest as [ | next rest IH ]; intros server k prev log Hk;
    (destruct k as [ | k ]; [ simpl in Hk; lia | ]).
  - (* the last candidate *)
    exists [server]. split; [ reflexivity | ].
    destruct (udp log (query_for target_name qtype server)) as [ r | ] eqn:Hq;
      [ destruct (answer r) as [ | rs section ] eqn:Ha | ].
    + left. split; [ reflexivity | ]. exists (Some r).
      split; [ now intros ? [= <-] | ].
      rewrite (lookup_loop_no_new_candidates _ _ _ _ _ _ _ _ _ Hq Ha) by eauto.
      apply lookup_loop_exhausted.
    + right. exists [], server, r. split; [ reflexivity | ].
      split; [ simpl; now rewrite app_nil_r | ].
      split; [ now rewrite Ha | ].
      apply lookup_loop_answer; [ exact Hq | now rewrite Ha ].
    + left. split; [ reflexivity | ]. exists None. split; [ discriminate | ].
      rewrite (lookup_loop_failed _ _ _ _ _ _ _ _ Hq).
      apply lookup_loop_exhausted.
  - (* a candidate with others behind it *)
    destruct (udp log (query_for target_name qtype server)) as [ r | ] eqn:Hq;
      [ destruct (answer r) as [ | rs section ] eqn:Ha | ].
    + rewrite (lookup_loop_no_new_candidates _ _ _ _ _ _ _ _ _ Hq Ha) by eauto.
      destruct (IH next k (Some (Some r))
                  (log ++ [query_for target_name qtype server]))
        as (asked & Hpre & Hcase); [ simpl in Hk; lia | ].
      exists (server :: asked). split; [ now apply prefix_cons | ].
      rewrite <- !queries_cons.
      destruct Hcase as [ (-> & v & Hv & ->) | (pre & s & r' & -> & Hq' & Ha' & ->) ].
      * left. split; [ reflexivity | ]. now exists v.
      * right. exists (server :: pre), s, r'. split; [ reflexivity | ].
        rewrite <- !queries_cons. repeat split; assumption || reflexivity.
    + exists [server]. split; [ apply prefix_cons, prefix_nil | right ].
      exists [], server, r. split; [ reflexivity | ].
      split; [ simpl; now rewrite app_nil_r | ].
      split; [ now rewrite Ha | ].
      apply lookup_loop_answer; [ exact Hq | now rewrite Ha ].
    + rewrite (lookup_loop_failed _ _ _ _ _ _ _ _ Hq).
      destruct (IH next k (Some None)
                  (log ++ [query_for target_name qtype server]))
        as (asked & Hpre & Hcase); [ simpl in Hk; lia | ].
      exists (server :: asked). split; [ now apply prefix_cons | ].
      rewrite <- !queries_cons.
      destruct Hcase as [ (-> & v & Hv & ->) | (pre & s & r' & -> & Hq' & Ha' & ->) ].
      * left. split; [ reflexivity | ]. now exists v.
      * right. exists (server :: pre), s, r'. split; [ reflexivity | ].
        rewrite <- !queries_cons. repeat split; assumption || reflexivity.
Qed.


(** *** Only the first record of an rrset is read *)

Lemma for_each_related {A S} (R : A -> A -> Prop) (body body' : A -> S -> M S)
    (xs ys : list A) :
  Forall2 R xs ys ->
  (forall x y s l, R x y -> body x s l = body' y s l) ->
  forall s l, for_each xs body s l = for_each ys body' s l.
Proof.
  intros Hxs Hbody.
  induction Hxs as [ | x y xs ys Hxy _ IH ]; intros s l; simpl; [ reflexivity | ].
  unfold bind. rewrite (Hbody x y s l Hxy).
  destruct (body' y s l) as [ | | s' l' ]; try reflexivity. apply IH.
Qed.

Lemma item0_same_first (a b : RRset) log :
  same_first a b -> item0 a log = item0 b log.
Proof.
  unfold same_first, item0.
  destruct (rrset_items a), (rrset_items b); simpl; congruence.
Qed.

Lemma additional_servers_same_first r r' log :
  Forall2 same_first (additional r) (additional r') ->
  additional_servers r log = additional_servers r' log.
Proof.
  intros Hsame. unfold additional_servers.
  apply for_each_related with (R := same_first); [ exact Hsame | ].
  intros x y s l Hxy. unfold bind. now rewrite (item0_same_first x y l Hxy).
Qed.

Lemma append_addresses_same_first (m m' : Message) servers log :
  Forall2 same_typed_first (answer m) (answer m') ->
  append_addresses m servers log = append_addresses m' servers log.
Proof.
  intros Hsame. unfold append_addresses.
  apply for_each_related with (R := same_typed_first); [ exact Hsame | ].
  intros x y s l [ Ht Hxy ]. rewrite Ht.
  destruct (rrset_rdtype y =? rdatatype.A); [ | reflexivity ].
  unfold bind. now rewrite (item0_same_first x y l Hxy).
Qed.

Lemma authority_servers_same_first lookup lookup' r r' servers log :
  Forall2 same_first (authority r) (authority r') ->
  (forall n t l, agree_on_firsts (lookup n t l) (lookup' n t l)) ->
  authority_servers from_text lookup r servers log =
  authority_servers from_text lookup' r' servers log.
Proof.
  intros Hsame Hagree. unfold authority_servers.
  apply for_each_related with (R := same_first); [ exact Hsame | ].
  intros x y s l Hxy.
  apply bind_cong; [ now apply item0_same_first | ]. intros a0 l0.
  destruct (negb (rdtype a0 =? rdatatype.SOA)); [ | reflexivity ].
  apply bind_cong; [ reflexivity | ]. intros n l1.
  unfold bind. specialize (Hagree n rdatatype.A l1).
  destruct (lookup n rdatatype.A l1) as [ | e l2 | [ m | ] l2 ],
           (lookup' n rdatatype.A l1) as [ | e' l2' | [ m' | ] l2' ];
    simpl in Hagree; try contradiction; try reflexivity.
  - destruct Hagree as [ -> -> ]. reflexivity.
  - destruct Hagree as [ -> Hans ]. now apply append_addresses_same_first.
  - now subst.
Qed.

(** C10. Referral extraction reads index 0 of every rrset and nothing behind
    it: two responses whose additional and authority rrsets have the same
    first records, resolved by nameserver resolutions whose answer rrsets
    have the same types and first records, give the same candidate list, the
    same queries and the same outcome.  So no record behind the first one of
    an rrset is ever tested, resolved or added to the candidates. *)
Theorem referral_reads_first_records_only lookup lookup' r r' servers log :
  Forall2 same_first (additional r) (additional r') ->
  Forall2 same_first (authority r) (authority r') ->
  (forall n t l, agree_on_firsts (lookup n t l) (lookup' n t l)) ->
  referral from_text lookup r servers log =
  referral from_text lookup' r' servers log.
Proof.
  intros Hadd Hauth Hagree. unfold referral, bind.
  rewrite (additional_servers_same_first r r' log Hadd).
  destruct (additional_servers r' log) as [ | | [ | ? ? ] l ]; try reflexivity.
  now apply authority_servers_same_first.
Qed.

(** *** What the sibling loops do *)

(** A response without alias records comes back from the chase as it is,
    and nothing is queried. *)
Lemma chase_no_alias lookup r qtype log :
  Forall (fun rs => Forall (fun d => rdtype d <> rdatatype.CNAME) (rrset_items rs))
    (answer r) ->
  chase lookup r qtype log = Returned r log.
Proof.
  intros Hno. unfold chase, bind.
  rewrite for_each_skip; [ reflexivity | ].
  eapply Forall_impl; [ exact Hno | ]. intros rs Hrs s' l.
  apply for_each_skip. eapply Forall_impl; [ exact Hrs | ].
  intros d Hd s'' l''. simpl.
  now destruct (Z.eqb_spec (rdtype d) rdatatype.CNAME).
Qed.

(** The address lists of [collect_results] hold the records of the type
    asked and no other. *)
Lemma address_entries_matching (code : Z) (section : list RRset) log :
  address_entries code section log =
  Returned
    (concat
       ((fun answers =>
           (fun d => ({[ "name" := VName (rrset_name answers);
                         "address" := VStr (to_text d) ]} : Entry))
             <$> filter (fun d => rdtype d = code) (rrset_items answers))
          <$> section))
    log.
Proof.
  unfold address_entries.
  enough (Hacc : forall (records : list Entry),
    for_each section (fun answers (records : list Entry) =>
      let a_name := rrset_name answers in
      for_each (rrset_items answers) (fun answer (records : list Entry) =>
        if rdtype answer =? code then
          ret (records ++
                 [ {[ "name" := VName a_name; "address" := VStr (to_text answer) ]} ])
        else ret records) records) records log =
    Returned
      (records ++
       concat
         ((fun answers =>
             (fun d => ({[ "name" := VName (rrset_name answers);
                           "address" := VStr (to_text d) ]} : Entry))
               <$> filter (fun d => rdtype d = code) (rrset_items answers))
            <$> section))
      log) by apply (Hacc []).
  induction section as [ | answers section IH ]; intros records; simpl.
  - now rewrite app_nil_r.
  - unfold bind.
    assert (Hinner : forall (items : list Rdata) (records : list Entry),
      for_each items (fun answer (records : list Entry) =>
        if rdtype answer =? code then
          ret (records ++
                 [ {[ "name" := VName (rrset_name answers);
                      "address" := VStr (to_text answer) ]} ])
        else ret records) records log =
      Returned
        (records ++
         ((fun d => ({[ "name" := VName (rrset_name answers);
                        "address" := VStr (to_text d) ]} : Entry))
            <$> filter (fun d => rdtype d = code) items))
        log).
    { clear. induction items as [ | d items IHi ]; intros records; simpl.
      - now rewrite app_nil_r.
      - unfold bind. rewrite filter_cons.
        destruct (Z.eqb_spec (rdtype d) code); destruct (decide _);
          try congruence; simpl; rewrite IHi; [ | reflexivity ].
        now rewrite <- app_assoc. }
    rewrite Hinner, IH. now rewrite <- app_assoc.
Qed.

End Properties.

(** ** The code on concrete networks *)


(** C6, where the code departs from it.  The answer to the CNAME question
    holds an address record; it becomes an entry of the CNAME list, which is
    built without a test of the type, while the same record is kept out of
    the AAAA and MX lists by their tests. *)
Theorem collect_results_cname_unfiltered :
  exists (d : Results) log,
    collect_results sample_from_text net_address_only 3 "host.example.com." [] =
      Returned d log /\
    d !! "CNAME" =
      Some [ {[ "name" := VRdata (a_record "192.0.2.1");
                "alias" := VStr "host.example.com." ]} ] /\
    rdtype (a_record "192.0.2.1") <> rdatatype.CNAME /\
    d !! "A" =
      Some [ {[ "name" := VName (mkName "host.example.com.");
                "address" := VStr "192.0.2.1" ]} ] /\
    d !! "AAAA" = Some [] /\
    d !! "MX" = Some [].
Proof.
  eexists _, _. split; [ vm_compute; reflexivity | ].
  repeat split; try reflexivity. discriminate.
Qed.

(** C2 as stated fails: the additional section holds two address records,
    in one rrset, and the candidate list gets the first of them only. *)
Lemma additional_second_address_dropped :
  net_glue [] (query_for www rdatatype.A first_root) = Some glue_referral /\
  answer glue_referral = [] /\
  spec_additional_addresses glue_referral = ["10.0.0.1"; "10.0.0.2"] /\
  loop_body sample_from_text net_glue (lookup sample_from_text net_glue 2)
    www rdatatype.A first_root (tail ROOT_SERVERS) [] =
    Returned (Continue (Some glue_referral) ["10.0.0.1"])
      [ query_for www rdatatype.A first_root ] /\
  ["10.0.0.1"] <> spec_additional_addresses glue_referral.
Proof. repeat split; try reflexivity. discriminate. Qed.

(** C4 as stated fails: the authority rrset names two nameservers and the
    first one has two addresses; the code resolves the first nameserver only
    and appends its first address only. *)
Lemma authority_second_nameserver_not_resolved :
  net_ns_only [] (query_for www rdatatype.A first_root) = Some ns_referral /\
  answer ns_referral = [] /\
  spec_additional_addresses ns_referral = [] /\
  loop_body sample_from_text net_ns_only (lookup sample_from_text net_ns_only 2)
    www rdatatype.A first_root ["192.0.2.53"] [] =
    Returned (Continue (Some ns_referral) ["192.0.2.53"; "10.0.0.1"])
      [ query_for www rdatatype.A first_root;
        query_for (mkName "ns1.example.net.") rdatatype.A first_root ] /\
  spec_authority_servers sample_from_text (lookup sample_from_text net_ns_only 2)
    ns_referral ["192.0.2.53"] [ query_for www rdatatype.A first_root ] =
    Returned ["192.0.2.53"; "10.0.0.1"; "10.0.0.9"; "10.0.0.2"]
      [ query_for www rdatatype.A first_root;
        query_for (mkName "ns1.example.net.") rdatatype.A first_root;
        query_for (mkName "ns2.example.net.") rdatatype.A first_root ] /\
  ["192.0.2.53"; "10.0.0.1"] <> ["192.0.2.53"; "10.0.0.1"; "10.0.0.9"; "10.0.0.2"].
Proof. repeat split; try reflexivity. discriminate. Qed.


(** ** The theorems at concrete inputs *)

Lemma referral_additional_replaces_witness :
  lookup_loop sample_from_text net_glue (lookup sample_from_text net_glue 2) 2
    www rdatatype.A ROOT_SERVERS None [] =
  lookup_loop sample_from_text net_glue (lookup sample_from_text net_glue 2) 1
    www rdatatype.A ["10.0.0.1"] (Some (Some glue_referral))
    [ query_for www rdatatype.A first_root ].
Proof.
  apply (referral_additional_replaces sample_from_text net_glue
           (lookup sample_from_text net_glue 2) 1 www rdatatype.A first_root
           (tail ROOT_SERVERS) None [] glue_referral).
  - reflexivity.
  - reflexivity.
  - repeat constructor. discriminate.
  - discriminate.
Defined.


Lemma referral_authority_appends_witness :
  (exists added, ["192.0.2.53"; "10.0.0.1"] = ["192.0.2.53"] ++ added) /\
  lookup_loop sample_from_text net_ns_only
    (lookup sample_from_text net_ns_only 2) 2
    www rdatatype.A [first_root; "192.0.2.53"] None [] =
  lookup_loop sample_from_text net_ns_only
    (lookup sample_from_text net_ns_only 2) 1
    www rdatatype.A ["192.0.2.53"; "10.0.0.1"] (Some (Some ns_referral))
    [ query_for www rdatatype.A first_root;
      query_for (mkName "ns1.example.net.") rdatatype.A first_root ].
Proof.
  apply (referral_authority_appends sample_from_text net_ns_only
           (lookup sample_from_text net_ns_only 2) 1 www rdatatype.A first_root
           ["192.0.2.53"] None [] ns_referral).
  - reflexivity.
  - reflexivity.
  - constructor.
  - reflexivity.
  - eapply (run_nameserver sample_from_text _ _ (ns_record "ns1.example.net.") _
              (mkName "ns1.example.net.")
              (Some (answer_message
                       [rrset_of "ns1.example.net." (a_record "10.0.0.1")
                          [a_record "10.0.0.9"]]))
              [ query_for www rdatatype.A first_root;
                query_for (mkName "ns1.example.net.") rdatatype.A first_root ]).
    + reflexivity.
    + discriminate.
    + reflexivity.
    + reflexivity.
    + repeat constructor. discriminate.
    + apply run_done.
Defined.


Lemma collect_results_rejects_malformed_name_witness :
  collect_results sample_from_text net_address_only 3 "host..example.com." [] =
  Raised SyntaxError [].
Proof.
  apply (collect_results_rejects_malformed_name sample_from_text
           net_address_only 3 "host..example.com." []).
  reflexivity.
Defined.

Lemma collect_results_keys_witness :
  exists (d : Results) log,
    collect_results sample_from_text net_empty 13 "host.example.com." [] =
      Returned d log /\
    dom d = {[ "CNAME"; "A"; "AAAA"; "MX" ]} /\
    d !! "A" = Some [].
Proof.
  eexists _, _. split; [ vm_compute; reflexivity | ]. split.
  - eapply (collect_results_keys sample_from_text net_empty 13
              "host.example.com." []).
    vm_compute. reflexivity.
  - reflexivity.
Defined.


Lemma referral_reads_first_records_only_witness :
  referral sample_from_text
    (one_nameserver
       (answer_message
          [rrset_of "ns1.example.net." (a_record "10.0.0.1") [a_record "10.0.0.9"]]))
    glue_referral ["192.0.2.53"] [] =
  referral sample_from_text
    (one_nameserver
       (answer_message [rrset_of "ns1.example.net." (a_record "10.0.0.1") []]))
    glue_referral_first ["192.0.2.53"] [].
Proof.
  apply (referral_reads_first_records_only sample_from_text).
  - repeat constructor.
  - repeat constructor.
  - intros n t l. simpl. split; [ reflexivity | ].
    repeat constructor.
Defined.

(** ** Further properties: the result aggregator *)

Section Aggregator.

Variable from_text : string -> option Name.
Variable udp : Log -> Query -> option Message.

(** A loop that appends to a list what [f] gives for each element. *)
Lemma for_each_collect {A B} (xs : list A) (f : A -> list B)
    (body : A -> list B -> M (list B)) (acc : list B) log :
  (forall x acc' l, body x acc' l = Returned (acc' ++ f x) l) ->
  for_each xs body acc log = Returned (acc ++ concat (f <$> xs)) log.
Proof.
  intros Hbody. revert acc.
  induction xs as [ | x xs IH ]; intros acc; simpl.
  - now rewrite app_nil_r.
  - unfold bind. rewrite Hbody, IH. now rewrite <- app_assoc.
Qed.

(** The converse, for a body that may raise. *)
Lemma for_each_collected {A B} (xs : list A) (f : A -> list B)
    (body : A -> list B -> M (list B)) (acc : list B) log out log' :
  (forall x acc' l out' l',
     body x acc' l = Returned out' l' -> out' = acc' ++ f x /\ l' = l) ->
  for_each xs body acc log = Returned out log' ->
  out = acc ++ concat (f <$> xs) /\ log' = log.
Proof.
  intros Hbody. revert acc.
  induction xs as [ | x xs IH ]; intros acc Hret; simpl in *.
  - inversion Hret; subst. now rewrite app_nil_r.
  - apply bind_inv in Hret. destruct Hret as (acc1 & l1 & Hx & Hrest).
    apply Hbody in Hx. destruct Hx as [ -> -> ].
    apply IH in Hrest. destruct Hrest as [ -> -> ].
    now rewrite <- app_assoc.
Qed.

Lemma concat_singletons {A B} (f : A -> B) (xs : list A) :
  concat ((fun x => [f x]) <$> xs) = f <$> xs.
Proof.
  induction xs as [ | x xs IH ]; [ reflexivity | ].
  cbn [fmap list_fmap concat app]. f_equal. exact IH.
Qed.

Lemma cname_entries_all (name : string) (section : list RRset) log :
  cname_entries name section log = Returned (all_entries name section) log.
Proof.
  unfold cname_entries, all_entries.
  apply (for_each_collect section
           (fun answers => cname_entry name <$> rrset_items answers) _ []).
  intros answers acc l.
  rewrite (for_each_collect (rrset_items answers)
             (fun d => [cname_entry name d]) _ acc l) by reflexivity.
  now rewrite concat_singletons.
Qed.

Lemma address_entries_typed (code : Z) (section : list RRset) log :
  address_entries code section log = Returned (typed_entries code section) log.
Proof. apply address_entries_matching. Qed.

(** The exchanger loop on one record. *)
Lemma mx_record_returned (owner : Name) (d : Rdata) (acc out : list Entry) l l' :
  (if rdtype d =? 15 then
     p <- attr (preference d) ;;
     e <- attr (exchange d) ;;
     ret (acc ++
            [ {[ "name" := VName owner; "preference" := VInt p;
                 "exchange" := VStr (name_text e) ]} ])
   else ret acc) l = Returned out l' ->
  out = acc ++ omap (mx_entry owner) (filter (fun d => rdtype d = 15) [d]) /\
  l' = l.
Proof.
  rewrite filter_cons, filter_nil.
  destruct (Z.eqb_spec (rdtype d) 15); destruct (decide _); try congruence.
  - unfold bind, attr, mx_entry. simpl.
    destruct (preference d), (exchange d); simpl; intros [= <- <-]; auto.
  - simpl. intros [= <- <-]. now rewrite app_nil_r.
Qed.

Lemma mx_entries_returned (section : list RRset) log out log' :
  mx_entries section log = Returned out log' ->
  out = exchanger_entries section /\ log' = log.
Proof.
  unfold mx_entries, exchanger_entries. intros Hret.
  eapply for_each_collected with
    (f := fun answers =>
            omap (mx_entry (rrset_name answers))
              (filter (fun d => rdtype d = 15) (rrset_items answers)))
    in Hret; [ exact Hret | ].
  clear. intros answers acc l out l' Hret.
  eapply for_each_collected with
    (f := fun d => omap (mx_entry (rrset_name answers))
                     (filter (fun d => rdtype d = 15) [d]))
    in Hret; [ | intros d acc' l0 out' l0'; apply mx_record_returned ].
  destruct Hret as [ -> -> ]. split; [ | reflexivity ]. f_equal.
  induction (rrset_items answers) as [ | d ds IH ]; [ reflexivity | ].
  cbn [fmap list_fmap concat]. rewrite IH.
  rewrite (filter_cons _ d ds), filter_cons, filter_nil.
  destruct (decide _); [ | reflexivity ].
  cbn [omap list_omap]. now destruct (mx_entry _ d).
Qed.

Lemma for_each_collect_on {A B} (xs : list A) (f : A -> list B)
    (body : A -> list B -> M (list B)) (acc : list B) log :
  Forall (fun x => forall acc' l, body x acc' l = Returned (acc' ++ f x) l) xs ->
  for_each xs body acc log = Returned (acc ++ concat (f <$> xs)) log.
Proof.
  intros Hbody. revert acc.
  induction Hbody as [ | x xs Hx _ IH ]; intros acc; simpl.
  - now rewrite app_nil_r.
  - unfold bind. rewrite Hx, IH. now rewrite <- app_assoc.
Qed.

Lemma mx_record_complete (owner : Name) (d : Rdata) (acc : list Entry) l :
  (rdtype d = 15 -> is_Some (preference d) /\ is_Some (exchange d)) ->
  (if rdtype d =? 15 then
     p <- attr (preference d) ;;
     e <- attr (exchange d) ;;
     ret (acc ++
            [ {[ "name" := VName owner; "preference" := VInt p;
                 "exchange" := VStr (name_text e) ]} ])
   else ret acc) l =
  Returned
    (acc ++ omap (mx_entry owner) (filter (fun d => rdtype d = 15) [d])) l.
Proof.
  intros Hd. rewrite filter_cons, filter_nil.
  destruct (Z.eqb_spec (rdtype d) 15) as [ H15 | H15 ]; destruct (decide _);
    try congruence.
  - destruct (Hd H15) as [ [ p Hp ] [ x Hx ] ].
    unfold bind, attr. rewrite Hp, Hx. cbn [omap list_omap].
    unfold mx_entry. rewrite Hp, Hx. reflexivity.
  - simpl. now rewrite app_nil_r.
Qed.

Lemma exchangers_of_records (owner : Name) (ds : list Rdata) :
  concat ((fun d => omap (mx_entry owner)
                      (filter (fun d => rdtype d = 15) [d])) <$> ds) =
  omap (mx_entry owner) (filter (fun d => rdtype d = 15) ds).
Proof.
  induction ds as [ | d ds IH ]; [ reflexivity | ].
  cbn [fmap list_fmap concat]. rewrite IH.
  rewrite (filter_cons _ d ds), filter_cons, filter_nil.
  destruct (decide _); [ | reflexivity ].
  cbn [omap list_omap]. now destruct (mx_entry _ d).
Qed.

Lemma mx_entries_exchangers (section : list RRset) log :
  exchangers_complete section ->
  mx_entries section log = Returned (exchanger_entries section) log.
Proof.
  intros Hall. unfold mx_entries, exchanger_entries.
  apply (for_each_collect_on section
           (fun answers =>
              omap (mx_entry (rrset_name answers))
                (filter (fun d => rdtype d = 15) (rrset_items answers))) _ []).
  eapply Forall_impl; [ exact Hall | ].
  intros answers Hrs acc l. cbv zeta.
  rewrite (for_each_collect_on (rrset_items answers)
             (fun d => omap (mx_entry (rrset_name answers))
                         (filter (fun d => rdtype d = 15) [d])) _ acc l).
  - now rewrite exchangers_of_records.
  - eapply Forall_impl; [ exact Hrs | ].
    intros d Hd acc' l'. now apply mx_record_complete.
Qed.

Lemma results_of_inserts (name : string) (r1 r2 r3 r4 : Message) :
  <["MX" := exchanger_entries (answer r4)]>
    (<["AAAA" := typed_entries 28 (answer r3)]>
       (<["A" := typed_entries 1 (answer r2)]>
          (<["CNAME" := all_entries name (answer r1)]> (∅ : Results)))) =
  results_of name r1 r2 r3 r4.
Proof. reflexivity. Qed.

Lemma collect_results_of_lookups fuel name n r1 r2 r3 r4 log l1 l2 l3 l4 :
  from_text name = Some n ->
  lookup from_text udp fuel n rdatatype.CNAME log = Returned (Some r1) l1 ->
  lookup from_text udp fuel n rdatatype.A l1 = Returned (Some r2) l2 ->
  lookup from_text udp fuel n rdatatype.AAAA l2 = Returned (Some r3) l3 ->
  lookup from_text udp fuel n rdatatype.MX l3 = Returned (Some r4) l4 ->
  exchangers_complete (answer r4) ->
  collect_results from_text udp fuel name log =
  Returned (results_of name r1 r2 r3 r4) l4.
Proof.
  intros Hn H1 H2 H3 H4 Hmx. unfold collect_results, name_from_text.
  rewrite Hn. unfold bind at 1. simpl.
  unfold bind at 1. rewrite H1. unfold bind at 1. simpl.
  unfold bind at 1. rewrite cname_entries_all.
  unfold bind at 1. rewrite H2. unfold bind at 1. simpl.
  unfold bind at 1. rewrite address_entries_typed.
  unfold bind at 1. rewrite H3. unfold bind at 1. simpl.
  unfold bind at 1. rewrite address_entries_typed.
  unfold bind at 1. rewrite H4. unfold bind at 1. simpl.
  unfold bind at 1. rewrite (mx_entries_exchangers _ _ Hmx).
  unfold ret. now rewrite results_of_inserts.
Qed.

Lemma collect_results_inv fuel name log (d : Results) log' :
  collect_results from_text udp fuel name log = Returned d log' ->
  exists n r1 r2 r3 r4 l1 l2 l3,
    from_text name = Some n /\
    lookup from_text udp fuel n rdatatype.CNAME log = Returned (Some r1) l1 /\
    lookup from_text udp fuel n rdatatype.A l1 = Returned (Some r2) l2 /\
    lookup from_text udp fuel n rdatatype.AAAA l2 = Returned (Some r3) l3 /\
    lookup from_text udp fuel n rdatatype.MX l3 = Returned (Some r4) log' /\
    d = results_of name r1 r2 r3 r4.
Proof.
  unfold collect_results. intros H.
  apply bind_inv in H. destruct H as (n & l0 & Hn & H).
  unfold name_from_text in Hn.
  destruct (from_text name) as [ n' | ] eqn:Hname; [ | discriminate ].
  inversion Hn; subst n' l0; clear Hn.
  apply bind_inv in H. destruct H as ([ r1 | ] & l1 & H1 & H);
    [ | apply bind_inv in H; destruct H as (? & ? & [=] & _) ].
  apply bind_inv in H. destruct H as (s1 & l1' & [= <- <-] & H).
  apply bind_inv in H. destruct H as (cnames & l1' & Hc & H).
  rewrite cname_entries_all in Hc. inversion Hc; subst cnames l1'; clear Hc.
  apply bind_inv in H. destruct H as ([ r2 | ] & l2 & H2 & H);
    [ | apply bind_inv in H; destruct H as (? & ? & [=] & _) ].
  apply bind_inv in H. destruct H as (s2 & l2' & [= <- <-] & H).
  apply bind_inv in H. destruct H as (arecords & l2' & Ha & H).
  rewrite address_entries_typed in Ha. inversion Ha; subst arecords l2'; clear Ha.
  apply bind_inv in H. destruct H as ([ r3 | ] & l3 & H3 & H);
    [ | apply bind_inv in H; destruct H as (? & ? & [=] & _) ].
  apply bind_inv in H. destruct H as (s3 & l3' & [= <- <-] & H).
  apply bind_inv in H. destruct H as (aaaarecords & l3' & Ha & H).
  rewrite address_entries_typed in Ha. inversion Ha; subst aaaarecords l3'; clear Ha.
  apply bind_inv in H. destruct H as ([ r4 | ] & l4 & H4 & H);
    [ | apply bind_inv in H; destruct H as (? & ? & [=] & _) ].
  apply bind_inv in H. destruct H as (s4 & l4' & [= <- <-] & H).
  apply bind_inv in H. destruct H as (mxrecords & l4' & Hm & H).
  apply mx_entries_returned in Hm. destruct Hm as [ -> -> ].
  inversion H; subst d log'; clear H.
  exists n, r1, r2, r3, r4, l1, l2, l3.
  repeat split; assumption.
Qed.

Lemma collect_results_none fuel name n log l1 :
  from_text name = Some n ->
  lookup from_text udp fuel n rdatatype.CNAME log = Returned None l1 ->
  collect_results from_text udp fuel name log = Raised AttributeError l1.
Proof.
  intros Hn H1. unfold collect_results, name_from_text.
  rewrite Hn. unfold bind at 1. simpl.
  unfold bind at 1. rewrite H1. reflexivity.
Qed.

(** X1. When the four lookups for a name, run one after the other on the
    log that the one before left, each return a message, [collect_results]
    returns the dictionary of: every record of the CNAME answer, the type-1
    records of the A answer, the type-28 records of the AAAA answer and the
    type-15 records of the MX answer, each list in the order of its answer
    section. *)
Theorem collect_results_returns fuel name n r1 r2 r3 r4 log l1 l2 l3 l4 :
  from_text name = Some n ->
  lookup from_text udp fuel n rdatatype.CNAME log = Returned (Some r1) l1 ->
  lookup from_text udp fuel n rdatatype.A l1 = Returned (Some r2) l2 ->
  lookup from_text udp fuel n rdatatype.AAAA l2 = Returned (Some r3) l3 ->
  lookup from_text udp fuel n rdatatype.MX l3 = Returned (Some r4) l4 ->
  exchangers_complete (answer r4) ->
  collect_results from_text udp fuel name log =
  Returned (results_of name r1 r2 r3 r4) l4.
Proof. apply collect_results_of_lookups. Qed.

(** X2. Every dictionary that [collect_results] returns comes from four
    lookups that returned a message, for CNAME, A, AAAA and MX in this
    order, and is built from their answers as [results_of] says: in
    particular the A, AAAA and MX lists hold records of their own type only,
    in the order of the answer section. *)
Theorem collect_results_returned fuel name log (d : Results) log' :
  collect_results from_text udp fuel name log = Returned d log' ->
  exists n r1 r2 r3 r4 l1 l2 l3,
    from_text name = Some n /\
    lookup from_text udp fuel n rdatatype.CNAME log = Returned (Some r1) l1 /\
    lookup from_text udp fuel n rdatatype.A l1 = Returned (Some r2) l2 /\
    lookup from_text udp fuel n rdatatype.AAAA l2 = Returned (Some r3) l3 /\
    lookup from_text udp fuel n rdatatype.MX l3 = Returned (Some r4) log' /\
    d = results_of name r1 r2 r3 r4.
Proof. apply collect_results_inv. Qed.


End Aggregator.

(** ** Further properties: printing *)

Section Output.

Variable from_text : string -> option Name.
Variable udp : Log -> Query -> option Message.

Lemma string_app_nil_r (s : string) : s +:+ "" = s.
Proof.
  induction s as [ | c s IH ]; [ reflexivity | ].
  change (String c (s +:+ "") = String c s). now rewrite IH.
Qed.

(** The four templates on entries that have their keys. *)
Lemma format_alias (vn va : Value) :
  format "{alias} is an alias for {name}" {[ "name" := vn; "alias" := va ]} =
  inr (str va +:+ " is an alias for " +:+ str vn).
Proof. rewrite <- (string_app_nil_r (str vn)). vm_compute. reflexivity. Qed.

Lemma format_address (vn va : Value) :
  format "{name} has address {address}" {[ "name" := vn; "address" := va ]} =
  inr (str vn +:+ " has address " +:+ str va).
Proof. rewrite <- (string_app_nil_r (str va)). vm_compute. reflexivity. Qed.

Lemma format_address6 (vn va : Value) :
  format "{name} has IPv6 address {address}"
    {[ "name" := vn; "address" := va ]} =
  inr (str vn +:+ " has IPv6 address " +:+ str va).
Proof. rewrite <- (string_app_nil_r (str va)). vm_compute. reflexivity. Qed.

Lemma format_exchanger (vn vp ve : Value) :
  format "{name} mail is handled by {preference} {exchange}"
    {[ "name" := vn; "preference" := vp; "exchange" := ve ]} =
  inr (str vn +:+ " mail is handled by " +:+ str vp +:+ " " +:+ str ve).
Proof. rewrite <- (string_app_nil_r (str ve)). vm_compute. reflexivity. Qed.

Lemma print_each_lines (fmt_str : string) (es : list Entry)
    (lines out : list string) :
  Forall2 (fun e line => format fmt_str e = inr line) es lines ->
  print_each fmt_str es out = PrintOk (out ++ lines).
Proof.
  intros Hall. revert out.
  induction Hall as [ | e line es lines He _ IH ]; intros out; simpl.
  - now rewrite app_nil_r.
  - rewrite He, IH. now rewrite <- app_assoc.
Qed.

(** The first entry that cannot be formatted stops the printing. *)
Lemma print_each_raises (fmt_str : string) (pre post : list Entry) (e : Entry)
    (err : FormatError) (lines out : list string) :
  Forall2 (fun e line => format fmt_str e = inr line) pre lines ->
  format fmt_str e = inl err ->
  print_each fmt_str (pre ++ e :: post) out = PrintRaised err (out ++ lines).
Proof.
  intros Hall He. revert out.
  induction Hall as [ | e' line es lines' He' _ IH ]; intros out; simpl.
  - now rewrite He, app_nil_r.
  - rewrite He', IH. now rewrite <- app_assoc.
Qed.

Lemma Forall2_concat_fmap {A B C} (R : B -> C -> Prop)
    (f : A -> list B) (g : A -> list C) (xs : list A) :
  (forall x, Forall2 R (f x) (g x)) ->
  Forall2 R (concat (f <$> xs)) (concat (g <$> xs)).
Proof.
  intros Hfg. induction xs as [ | x xs IH ]; [ constructor | ].
  cbn [fmap list_fmap concat]. apply Forall2_app; [ apply Hfg | exact IH ].
Qed.

Lemma Forall2_fmap_same {A B C} (R : B -> C -> Prop)
    (f : A -> B) (g : A -> C) (xs : list A) :
  (forall x, R (f x) (g x)) -> Forall2 R (f <$> xs) (g <$> xs).
Proof.
  intros Hfg. induction xs as [ | x xs IH ]; constructor; [ apply Hfg | exact IH ].
Qed.

Lemma Forall2_omap_same {A B C} (R : B -> C -> Prop)
    (f : A -> option B) (g : A -> option C) (xs : list A) :
  (forall x, option_Forall2 R (f x) (g x)) ->
  Forall2 R (omap f xs) (omap g xs).
Proof.
  intros Hfg. induction xs as [ | x xs IH ]; [ constructor | ].
  cbn [omap list_omap]. destruct (Hfg x); [ now constructor | exact IH ].
Qed.

Lemma all_entries_lines (name : string) (section : list RRset) :
  Forall2 (fun e line => format "{alias} is an alias for {name}" e = inr line)
    (all_entries name section) (alias_lines name section).
Proof.
  apply Forall2_concat_fmap. intros answers. apply Forall2_fmap_same.
  intros d. apply format_alias.
Qed.

Lemma typed_entries_lines (code : Z) (section : list RRset) :
  Forall2 (fun e line => format "{name} has address {address}" e = inr line)
    (typed_entries code section) (typed_lines address_line code section).
Proof.
  apply Forall2_concat_fmap. intros answers. apply Forall2_fmap_same.
  intros d. apply format_address.
Qed.

Lemma typed_entries_lines6 (code : Z) (section : list RRset) :
  Forall2 (fun e line => format "{name} has IPv6 address {address}" e = inr line)
    (typed_entries code section) (typed_lines address6_line code section).
Proof.
  apply Forall2_concat_fmap. intros answers. apply Forall2_fmap_same.
  intros d. apply format_address6.
Qed.

Lemma exchanger_entries_lines (section : list RRset) :
  Forall2
    (fun e line =>
       format "{name} mail is handled by {preference} {exchange}" e = inr line)
    (exchanger_entries section) (exchanger_lines section).
Proof.
  apply Forall2_concat_fmap. intros answers. apply Forall2_omap_same.
  intros d. unfold mx_entry, mx_line.
  destruct (preference d) as [ p | ]; [ | constructor ].
  destruct (exchange d) as [ x | ]; constructor.
  apply format_exchanger.
Qed.

Lemma print_results_of (name : string) (r1 r2 r3 r4 : Message)
    (out : list string) :
  print_results (results_of name r1 r2 r3 r4) out =
  PrintOk (out ++ alias_lines name (answer r1)
               ++ typed_lines address_line 1 (answer r2)
               ++ typed_lines address6_line 28 (answer r3)
               ++ exchanger_lines (answer r4)).
Proof.
  unfold print_results, FORMATS. cbn [print_formats].
  change (results_of name r1 r2 r3 r4 !! "CNAME")
    with (Some (all_entries name (answer r1))).
  change (results_of name r1 r2 r3 r4 !! "A")
    with (Some (typed_entries 1 (answer r2))).
  change (results_of name r1 r2 r3 r4 !! "AAAA")
    with (Some (typed_entries 28 (answer r3))).
  change (results_of name r1 r2 r3 r4 !! "MX")
    with (Some (exchanger_entries (answer r4))).
  cbn [default from_option].
  rewrite (print_each_lines _ _ _ _ (all_entries_lines name (answer r1))).
  rewrite (print_each_lines _ _ _ _ (typed_entries_lines 1 (answer r2))).
  rewrite (print_each_lines _ _ _ _ (typed_entries_lines6 28 (answer r3))).
  rewrite (print_each_lines _ _ _ _ (exchanger_entries_lines (answer r4))).
  now rewrite <- !app_assoc.
Qed.

Lemma format_alias_missing (e : Entry) :
  e !! "alias" = None ->
  format "{alias} is an alias for {name}" e = inl (KeyError "alias").
Proof.
  intros He. unfold format. cbn [format_fields is_char String.eqb Ascii.eqb
    Bool.eqb].
  change ((((("" +:+ "a") +:+ "l") +:+ "i") +:+ "a") +:+ "s") with "alias".
  now rewrite He.
Qed.

Lemma main_app fuel (names1 names2 : list string) verbose log out :
  main from_text udp fuel (names1 ++ names2) verbose log out =
  match main from_text udp fuel names1 verbose log out with
  | MainReturned l o => main from_text udp fuel names2 verbose l o
  | other => other
  end.
Proof.
  revert log out.
  induction names1 as [ | a names1 IH ]; intros log out; simpl.
  - reflexivity.
  - destruct (collect_results from_text udp fuel a log) as [ | e l | d l ];
      try reflexivity.
    destruct (print_results d out) as [ o | e o ]; [ apply IH | reflexivity ].
Qed.

(** X4. On every dictionary that [collect_results] returns, [print_results]
    raises nothing and adds to the output, in this order: a line
    "NAME is an alias for RECORD" per record of the CNAME answer, where NAME
    is the name asked; a line "OWNER has address ADDRESS" per type-1 record
    of the A answer; a line "OWNER has IPv6 address ADDRESS" per type-28
    record of the AAAA answer; a line "OWNER mail is handled by PREFERENCE
    EXCHANGE" per type-15 record of the MX answer. *)
Theorem print_results_after_collect fuel name log (d : Results) log'
    (out : list string) :
  collect_results from_text udp fuel name log = Returned d log' ->
  exists r1 r2 r3 r4,
    d = results_of name r1 r2 r3 r4 /\
    print_results d out =
    PrintOk (out ++ alias_lines name (answer r1)
                 ++ typed_lines address_line 1 (answer r2)
                 ++ typed_lines address6_line 28 (answer r3)
                 ++ exchanger_lines (answer r4)).
Proof.
  intros Hret. apply collect_results_inv in Hret.
  destruct Hret as (n & r1 & r2 & r3 & r4 & l1 & l2 & l3 & _ & _ & _ & _ & _ & ->).
  exists r1, r2, r3, r4. split; [ reflexivity | apply print_results_of ].
Qed.

(** X5. When the four lookups for the first name each return a message,
    [main] prints the lines of that name and goes on with the other names
    from the log and the output it has then. *)
Theorem main_prints_name fuel name names verbose n r1 r2 r3 r4
    log l1 l2 l3 l4 (out : list string) :
  from_text name = Some n ->
  lookup from_text udp fuel n rdatatype.CNAME log = Returned (Some r1) l1 ->
  lookup from_text udp fuel n rdatatype.A l1 = Returned (Some r2) l2 ->
  lookup from_text udp fuel n rdatatype.AAAA l2 = Returned (Some r3) l3 ->
  lookup from_text udp fuel n rdatatype.MX l3 = Returned (Some r4) l4 ->
  exchangers_complete (answer r4) ->
  main from_text udp fuel (name :: names) verbose log out =
  main from_text udp fuel names verbose l4
    (out ++ alias_lines name (answer r1)
         ++ typed_lines address_line 1 (answer r2)
         ++ typed_lines address6_line 28 (answer r3)
         ++ exchanger_lines (answer r4)).
Proof.
  intros Hn H1 H2 H3 H4 Hmx. cbn [main].
  rewrite (collect_results_of_lookups from_text udp fuel name n r1 r2 r3 r4
             log l1 l2 l3 l4 Hn H1 H2 H3 H4 Hmx).
  now rewrite print_results_of.
Qed.

(** X6. A name that [dns.name.from_text] refuses ends the run with that
    exception: the names before it have been resolved and printed, the names
    after it are never looked up. *)
Theorem main_stops_at_malformed_name fuel (names1 names2 : list string)
    (bad : string) verbose log out l1 o1 :
  main from_text udp fuel names1 verbose log out = MainReturned l1 o1 ->
  from_text bad = None ->
  main from_text udp fuel (names1 ++ bad :: names2) verbose log out =
  MainRaised (inl SyntaxError) l1 o1.
Proof.
  intros H1 Hbad. rewrite main_app, H1. cbn [main].
  unfold collect_results, name_from_text, bind. now rewrite Hbad.
Qed.

(** X7. [main] never ends with an exception of [print_results]: whatever
    the names and the network, the entries that [collect_results] builds
    have the keys that the templates of [FORMATS] name. *)
Theorem main_never_raises_format_error fuel (names : list string) verbose
    log out (e : FormatError) l o :
  main from_text udp fuel names verbose log out <> MainRaised (inr e) l o.
Proof.
  revert log out.
  induction names as [ | a names IH ]; intros log out; cbn [main];
    [ discriminate | ].
  destruct (collect_results from_text udp fuel a log) as [ | e' l' | d l' ] eqn:Hc;
    try discriminate.
  apply collect_results_inv in Hc.
  destruct Hc as (n & r1 & r2 & r3 & r4 & l1 & l2 & l3 & _ & _ & _ & _ & _ & ->).
  rewrite print_results_of. apply IH.
Qed.

(** X8. An entry of the CNAME list without the key "alias" makes
    [print_results] raise [KeyError] for that key: the lines of the entries
    before it are printed, nothing of what follows is. *)
Theorem print_results_missing_field (d : Results) (name : string)
    (ds : list Rdata) (e : Entry) (post : list Entry) (out : list string) :
  d !! "CNAME" = Some ((cname_entry name <$> ds) ++ e :: post) ->
  e !! "alias" = None ->
  print_results d out =
  PrintRaised (KeyError "alias") (out ++ (cname_line name <$> ds)).
Proof.
  intros Hd He. unfold print_results, FORMATS. cbn [print_formats].
  rewrite Hd. cbn [default from_option id].
  rewrite (print_each_raises _ (cname_entry name <$> ds) post e
             (KeyError "alias") (cname_line name <$> ds) out).
  - reflexivity.
  - apply Forall2_fmap_same. intros x. apply format_alias.
  - now apply format_alias_missing.
Qed.

End Output.

(** ** Further properties: the resolution engine *)

Section Engine.

Variable from_text : string -> option Name.
Variable udp : Log -> Query -> option Message.

Implicit Types (lookup : Name -> Z -> M (option Message)).

Lemma alias_step_skip lookup qtype (ds : list Rdata) (cr : option Message) log :
  Forall (fun d => rdtype d <> rdatatype.CNAME) ds ->
  for_each ds (alias_step lookup qtype) cr log = Returned cr log.
Proof.
  intros Hds. apply for_each_skip. eapply Forall_impl; [ exact Hds | ].
  intros d Hd s' l. unfold alias_step.
  now destruct (Z.eqb_spec (rdtype d) rdatatype.CNAME).
Qed.

Lemma alias_rrsets_skip lookup qtype (section : list RRset)
    (cr : option Message) log :
  alias_free section ->
  for_each section
    (fun a cr' => for_each (rrset_items a) (alias_step lookup qtype) cr') cr log =
  Returned cr log.
Proof.
  intros Hfree. apply for_each_skip. eapply Forall_impl; [ exact Hfree | ].
  intros rs Hrs s' l. now apply alias_step_skip.
Qed.

Lemma chase_one_alias lookup (r : Message) qtype log
    (pre post : list RRset) (rs : RRset) (ipre ipost : list Rdata)
    (d : Rdata) (tgt : Name) :
  answer r = pre ++ rs :: post ->
  rrset_items rs = ipre ++ d :: ipost ->
  alias_free pre -> alias_free post ->
  Forall (fun d => rdtype d <> rdatatype.CNAME) ipre ->
  Forall (fun d => rdtype d <> rdatatype.CNAME) ipost ->
  rdtype d = rdatatype.CNAME ->
  target d = Some tgt ->
  chase lookup r qtype log =
  match lookup tgt qtype log with
  | OutOfFuel => OutOfFuel
  | Raised e l => Raised e l
  | Returned None l => Returned r l
  | Returned (Some m) l => Returned (extend_answer r (answer m)) l
  end.
Proof.
  intros Ha Hi Hpre Hpost Hipre Hipost Hd Ht. unfold chase.
  change (fun (a : RRset) (cname_response : option Message) =>
            for_each (rrset_items a)
              (fun (answer : Rdata) (cname_response0 : option Message) =>
                 if rdtype answer =? rdatatype.CNAME
                 then cname_target <- attr (target answer) ;;
                      lookup cname_target qtype
                 else ret cname_response0) cname_response)
    with (fun a cr' => for_each (rrset_items a) (alias_step lookup qtype) cr').
  unfold bind at 1. rewrite Ha, for_each_app. unfold bind at 1.
  rewrite (alias_rrsets_skip lookup qtype pre None log Hpre).
  cbn [for_each]. unfold bind at 1.
  rewrite Hi, for_each_app. unfold bind at 1.
  rewrite (alias_step_skip lookup qtype ipre None log Hipre).
  cbn [for_each]. unfold bind at 1. unfold alias_step at 1.
  rewrite Hd. cbn [Z.eqb Pos.eqb rdatatype.CNAME]. rewrite Ht.
  unfold bind at 1. cbn [attr ret].
  destruct (lookup tgt qtype log) as [ | e l | cr l ]; try reflexivity.
  rewrite (alias_step_skip lookup qtype ipost cr l Hipost).
  rewrite (alias_rrsets_skip lookup qtype post cr l Hpost).
  now destruct cr.
Qed.

(** The chase only ever extends the answer section. *)
Lemma chase_extends lookup (r : Message) qtype log (r' : Message) l :
  chase lookup r qtype log = Returned r' l ->
  exists more, r' = extend_answer r more.
Proof.
  unfold chase. intros H. apply bind_inv in H.
  destruct H as ([ cr | ] & l1 & _ & H); inversion H; subst.
  - now eexists.
  - exists []. unfold extend_answer. rewrite app_nil_r. now destruct r'.
Qed.

(** X9. A response with answers and no alias record among them ends the
    resolution at once: [lookup] returns it as it is, and neither the
    remaining candidates nor any other name is asked. *)
Theorem lookup_returns_direct_answer
    lookup k target_name qtype server rest prev log (r : Message) :
  udp log (query_for target_name qtype server) = Some r ->
  answer r <> [] ->
  alias_free (answer r) ->
  lookup_loop from_text udp lookup (S k) target_name qtype (server :: rest) prev log =
  Returned (Some r) (log ++ [query_for target_name qtype server]).
Proof.
  intros Hq Ha Hfree.
  rewrite (lookup_loop_answer from_text udp lookup k _ _ _ rest prev _ _ Hq Ha).
  unfold bind. now rewrite chase_no_alias.
Qed.

(** X10. A response that holds exactly one alias record has the target of
    that record resolved for the type asked, on the log as it is after the
    query, and what [lookup] returns is the response with the answer of that
    resolution appended; it is the response itself when the resolution
    returns [None], and the exception when the resolution raises. *)
Theorem lookup_follows_alias
    lookup k target_name qtype server rest prev log (r : Message)
    (pre post : list RRset) (rs : RRset) (ipre ipost : list Rdata)
    (d : Rdata) (tgt : Name) :
  udp log (query_for target_name qtype server) = Some r ->
  answer r = pre ++ rs :: post ->
  rrset_items rs = ipre ++ d :: ipost ->
  alias_free pre -> alias_free post ->
  Forall (fun d => rdtype d <> rdatatype.CNAME) ipre ->
  Forall (fun d => rdtype d <> rdatatype.CNAME) ipost ->
  rdtype d = rdatatype.CNAME ->
  target d = Some tgt ->
  lookup_loop from_text udp lookup (S k) target_name qtype (server :: rest) prev log =
  match lookup tgt qtype (log ++ [query_for target_name qtype server]) with
  | OutOfFuel => OutOfFuel
  | Raised e l => Raised e l
  | Returned None l => Returned (Some r) l
  | Returned (Some m) l => Returned (Some (extend_answer r (answer m))) l
  end.
Proof.
  intros Hq Ha Hi Hpre Hpost Hipre Hipost Hd Ht.
  rewrite (lookup_loop_answer from_text udp lookup k _ _ _ rest prev _ _ Hq)
    by (rewrite Ha; now destruct pre).
  unfold bind.
  rewrite (chase_one_alias lookup r qtype _ pre post rs ipre ipost d tgt
             Ha Hi Hpre Hpost Hipre Hipost Hd Ht).
  now destruct (lookup tgt qtype _) as [ | | [ m | ] l ].
Qed.

(** X11. Whatever aliases are chased, [lookup] never drops or reorders what
    the server answered: when a response has answers, the message returned
    is that response with records appended to its answer section, its
    authority and additional sections untouched. *)
Theorem lookup_keeps_direct_answer
    lookup k target_name qtype server rest prev log (r : Message) v l :
  udp log (query_for target_name qtype server) = Some r ->
  answer r <> [] ->
  lookup_loop from_text udp lookup (S k) target_name qtype (server :: rest) prev log =
    Returned v l ->
  exists more, v = Some (extend_answer r more).
Proof.
  intros Hq Ha Hret.
  rewrite (lookup_loop_answer from_text udp lookup k _ _ _ rest prev _ _ Hq Ha)
    in Hret.
  apply bind_inv in Hret. destruct Hret as (r' & l' & Hc & Hr).
  inversion Hr; subst. apply chase_extends in Hc.
  destruct Hc as [ more -> ]. now exists more.
Qed.

(** X12. A response without answers that names no new candidate, such as a
    negative answer with only a start-of-authority record, does not end the
    resolution: the same question goes to the remaining candidates. *)
Theorem lookup_continues_after_negative_response
    lookup k target_name qtype server rest prev log (r : Message) :
  udp log (query_for target_name qtype server) = Some r ->
  answer r = [] ->
  no_new_candidates r ->
  lookup_loop from_text udp lookup (S k) target_name qtype (server :: rest) prev log =
  lookup_loop from_text udp lookup k target_name qtype rest (Some (Some r))
    (log ++ [query_for target_name qtype server]).
Proof. apply lookup_loop_no_new_candidates. Qed.

(** X13. A nameserver record whose text [dns.name.from_text] refuses makes
    [lookup] raise: when the additional section gives no address and the
    first authority rrset starts with such a record, not a
    start-of-authority, the exception leaves the loop right after the
    query, no further candidate being asked. *)
Theorem lookup_raises_on_malformed_nameserver
    lookup k target_name qtype server rest prev log (r : Message)
    (rs : RRset) (section : list RRset) (a0 : Rdata) (more : list Rdata) :
  udp log (query_for target_name qtype server) = Some r ->
  answer r = [] ->
  Forall (fun rs => rrset_items rs <> []) (additional r) ->
  first_addresses (additional r) = [] ->
  authority r = rs :: section ->
  rrset_items rs = a0 :: more ->
  rdtype a0 <> rdatatype.SOA ->
  from_text (to_text a0) = None ->
  lookup_loop from_text udp lookup (S k) target_name qtype (server :: rest) prev log =
  Raised SyntaxError (log ++ [query_for target_name qtype server]).
Proof.
  intros Hq Ha Hne Hnone Hauth Hi Ht Hn.
  rewrite lookup_loop_step,
    (loop_body_referral from_text udp lookup _ _ _ rest _ _ Hq Ha).
  unfold referral, bind.
  rewrite additional_servers_first_addresses, Hnone by assumption.
  unfold authority_servers. rewrite Hauth. cbn [for_each].
  unfold bind, item0, name_from_text. rewrite Hi. cbn [ret].
  destruct (Z.eqb_spec (rdtype a0) rdatatype.SOA); [ contradiction | ].
  cbn [negb]. now rewrite Hn.
Qed.

End Engine.

(** ** Further properties: exceptions and queries of a resolution *)

Section Safety.

Variable from_text : string -> option Name.
Variable udp : Log -> Query -> option Message.

(** The exceptions allowed. *)
Variable R : Exception -> Prop.

Hypothesis Hindex :
  R IndexError \/ forall l q r, udp l q = Some r -> sections_filled r.
Hypothesis Hattribute :
  R AttributeError \/ forall l q r, udp l q = Some r -> aliases_targeted r.
Hypothesis Hsyntax :
  R SyntaxError \/ forall l q r, udp l q = Some r -> nameservers_named from_text r.

Lemma sat_ret {A} (P : Query -> Prop) (Q : A -> Prop) (a : A) :
  Q a -> sat R P Q (ret a).
Proof.
  intros Ha log. simpl. split; [ exact Ha | ].
  exists []. now rewrite app_nil_r.
Qed.

Lemma sat_raise {A} (P : Query -> Prop) (Q : A -> Prop) (e : Exception) :
  R e -> sat R P Q (raise e).
Proof.
  intros He log. simpl. split; [ exact He | ].
  exists []. now rewrite app_nil_r.
Qed.

Lemma sat_bind {A B} (P : Query -> Prop) (Q1 : A -> Prop) (Q2 : B -> Prop)
    (c : M A) (k : A -> M B) :
  sat R P Q1 c -> (forall a, Q1 a -> sat R P Q2 (k a)) ->
  sat R P Q2 (bind c k).
Proof.
  intros Hc Hk log. unfold bind. specialize (Hc log).
  destruct (c log) as [ | e l | a l ]; [ exact I | exact Hc | ].
  destruct Hc as (Ha & new & -> & Hnew).
  specialize (Hk a Ha (log ++ new)).
  destruct (k a (log ++ new)) as [ | e l | b l ]; [ exact I | | ].
  - destruct Hk as (He & new' & -> & Hnew'). split; [ exact He | ].
    exists (new ++ new'). rewrite app_assoc. split; [ reflexivity | ].
    now apply Forall_app.
  - destruct Hk as (Hb & new' & -> & Hnew'). split; [ exact Hb | ].
    exists (new ++ new'). rewrite app_assoc. split; [ reflexivity | ].
    now apply Forall_app.
Qed.

Lemma sat_for_each {A S} (P : Query -> Prop) (Inv : S -> Prop)
    (xs : list A) (body : A -> S -> M S) (s : S) :
  Inv s ->
  Forall (fun x => forall s', Inv s' -> sat R P Inv (body x s')) xs ->
  sat R P Inv (for_each xs body s).
Proof.
  intros Hs Hbody. revert s Hs.
  induction Hbody as [ | x xs Hx _ IH ]; intros s Hs; simpl.
  - now apply sat_ret.
  - eapply sat_bind; [ now apply Hx | exact IH ].
Qed.

Lemma sat_weaken {A} (P P' : Query -> Prop) (Q Q' : A -> Prop) (c : M A) :
  (forall q, P q -> P' q) -> (forall a, Q a -> Q' a) ->
  sat R P Q c -> sat R P' Q' c.
Proof.
  intros HP HQ Hc log. specialize (Hc log).
  destruct (c log) as [ | e l | a l ]; [ exact I | | ].
  - destruct Hc as (He & new & -> & Hnew). split; [ exact He | ].
    exists new. split; [ reflexivity | ]. eapply Forall_impl; eauto.
  - destruct Hc as (Ha & new & -> & Hnew). split; [ now apply HQ | ].
    exists new. split; [ reflexivity | ]. eapply Forall_impl; eauto.
Qed.

Lemma sat_item0 (P : Query -> Prop) (rs : RRset) :
  R IndexError \/ rrset_items rs <> [] ->
  sat R P (fun d => exists more, rrset_items rs = d :: more) (item0 rs).
Proof.
  intros Hrs. unfold item0.
  destruct (rrset_items rs) as [ | d more ]; [ | apply sat_ret; now exists more ].
  destruct Hrs as [ HR | Hne ]; [ now apply sat_raise | congruence ].
Qed.

Lemma sat_attr {A} (P : Query -> Prop) (o : option A) :
  R AttributeError \/ o <> None ->
  sat R P (fun _ => True) (attr o).
Proof.
  intros Ho. unfold attr. destruct o; [ now apply sat_ret | ].
  destruct Ho as [ HR | Hne ]; [ now apply sat_raise | congruence ].
Qed.

Lemma sat_send (target_name : Name) (qtype : Z) (s : string) :
  sat R (asks qtype) (fun v => forall r, v = Some r -> exists l q, udp l q = Some r)
    (send udp target_name qtype s).
Proof.
  intros log. simpl. split; [ intros r Hr; eauto | ].
  eexists. split; [ reflexivity | ].
  repeat constructor.
Qed.

Lemma sat_name_from_text (P : Query -> Prop) (text : string) :
  R SyntaxError \/ from_text text <> None ->
  sat R P (fun _ => True) (name_from_text from_text text).
Proof.
  intros Ht. unfold name_from_text.
  destruct (from_text text); [ now apply sat_ret | ].
  destruct Ht as [ HR | Hne ]; [ now apply sat_raise | congruence ].
Qed.

(** The three guarantees, for one response of the network. *)
Lemma served_filled l q (r : Message) :
  udp l q = Some r -> R IndexError \/ sections_filled r.
Proof. intros Hq. destruct Hindex as [ HR | H ]; [ now left | right; eauto ]. Qed.

Lemma served_targeted l q (r : Message) :
  udp l q = Some r ->
  Forall (fun rs =>
            Forall (fun d => rdtype d = rdatatype.CNAME ->
                             R AttributeError \/ target d <> None)
              (rrset_items rs))
    (answer r).
Proof.
  intros Hq. destruct Hattribute as [ HR | H ].
  - apply Forall_forall. intros rs _. apply Forall_forall. intros d _ _. now left.
  - eapply Forall_impl; [ exact (H l q r Hq) | ]. intros rs Hrs.
    eapply Forall_impl; [ exact Hrs | ]. intros d Hd Hc. right. now apply Hd.
Qed.

Lemma served_named l q (r : Message) :
  udp l q = Some r ->
  Forall (fun rs => forall a0 more,
            rrset_items rs = a0 :: more ->
            rdtype a0 <> rdatatype.SOA ->
            R SyntaxError \/ from_text (to_text a0) <> None)
    (authority r).
Proof.
  intros Hq. destruct Hsyntax as [ HR | H ].
  - apply Forall_forall. intros rs _ a0 more _ _. now left.
  - eapply Forall_impl; [ exact (H l q r Hq) | ].
    intros rs Hrs a0 more Hi Ht. right. eauto.
Qed.

Lemma filled_or (xs : list RRset) :
  R IndexError \/ Forall (fun rs => rrset_items rs <> []) xs ->
  Forall (fun rs => R IndexError \/ rrset_items rs <> []) xs.
Proof.
  intros [ HR | H ].
  - apply Forall_forall. intros rs _. now left.
  - eapply Forall_impl; [ exact H | ]. intros rs Hrs. now right.
Qed.

Section WithResolver.

(** The resolver of the recursive calls keeps the guarantees. *)
Variable lookup : Name -> Z -> M (option Message).
Hypothesis Hlookup :
  forall n t, sat R (asks t) (answers_filled R) (lookup n t).

Lemma sat_chase l q (r : Message) (qtype : Z) :
  udp l q = Some r ->
  sat R (asks qtype) (fun m => answers_filled R (Some m)) (chase lookup r qtype).
Proof.
  intros Hq. unfold chase.
  eapply sat_bind with (Q1 := answers_filled R).
  - apply sat_for_each; [ right; discriminate | ].
    eapply Forall_impl; [ exact (served_targeted l q r Hq) | ].
    intros rs Hrs cr Hcr. apply sat_for_each; [ exact Hcr | ].
    eapply Forall_impl; [ exact Hrs | ].
    intros d Hd cr' Hcr'.
    destruct (Z.eqb_spec (rdtype d) rdatatype.CNAME) as [ Hc | Hc ].
    + eapply sat_bind; [ apply sat_attr; exact (Hd Hc) | ].
      intros tgt _. apply Hlookup.
    + now apply sat_ret.
  - intros [ cr | ] Hcr; apply sat_ret.
    + destruct Hcr as [ HR | Hcr ]; [ now left | ].
      destruct (served_filled l q r Hq) as [ HR | (Hans & _ & _) ]; [ now left | ].
      right. intros m [= <-]. simpl. apply Forall_app. split; [ exact Hans | ].
      now apply Hcr.
    + destruct (served_filled l q r Hq) as [ HR | (Hans & _ & _) ]; [ now left | ].
      right. now intros m [= <-].
Qed.

Lemma sat_additional_servers (P : Query -> Prop) l q (r : Message) :
  udp l q = Some r ->
  sat R P (fun _ => True) (additional_servers r).
Proof.
  intros Hq. unfold additional_servers. apply sat_for_each; [ exact I | ].
  assert (Hadd : Forall (fun rs => R IndexError \/ rrset_items rs <> [])
                   (additional r)).
  { apply filled_or.
    destruct (served_filled l q r Hq) as [ HR | (_ & _ & H) ]; auto. }
  eapply Forall_impl; [ exact Hadd | ].
  intros rs Hrs s' _. eapply sat_bind; [ apply sat_item0; exact Hrs | ].
  intros d _. destruct (rdtype d =? rdatatype.A); now apply sat_ret.
Qed.

Lemma sat_append_addresses (P : Query -> Prop) (m : Message)
    (servers : list string) :
  answers_filled R (Some m) ->
  sat R P (fun _ => True) (append_addresses m servers).
Proof.
  intros Hm. unfold append_addresses. apply sat_for_each; [ exact I | ].
  assert (Hans : Forall (fun rs => R IndexError \/ rrset_items rs <> [])
                   (answer m)).
  { apply filled_or. destruct Hm as [ HR | Hm ]; [ now left | right; auto ]. }
  eapply Forall_impl; [ exact Hans | ].
  intros rs Hrs s' _. destruct (rrset_rdtype rs =? rdatatype.A).
  - eapply sat_bind; [ apply sat_item0; exact Hrs | ].
    intros d _. now apply sat_ret.
  - now apply sat_ret.
Qed.

Lemma asks_address (qtype : Z) (q : Query) :
  asks rdatatype.A q -> asks qtype q.
Proof. intros [ Ht [ Hq | Hq ] ]; split; auto. Qed.

Lemma sat_authority_servers l q (r : Message) (qtype : Z)
    (servers : list string) :
  udp l q = Some r ->
  sat R (asks qtype) (fun _ => True) (authority_servers from_text lookup r servers).
Proof.
  intros Hq. unfold authority_servers. apply sat_for_each; [ exact I | ].
  assert (Hauth : Forall (fun rs => R IndexError \/ rrset_items rs <> [])
                    (authority r)).
  { apply filled_or.
    destruct (served_filled l q r Hq) as [ HR | (_ & H & _) ]; auto. }
  pose proof (served_named l q r Hq) as Hnamed.
  rewrite Forall_forall in Hauth, Hnamed. apply Forall_forall.
  intros rs Hin s' _.
  eapply sat_bind; [ apply sat_item0; exact (Hauth rs Hin) | ].
  intros a0 [ more Hi ].
  destruct (Z.eqb_spec (rdtype a0) rdatatype.SOA) as [ Hsoa | Hns ];
    cbn [negb]; [ now apply sat_ret | ].
  eapply sat_bind;
    [ apply sat_name_from_text; exact (Hnamed rs Hin a0 more Hi Hns) | ].
  intros n _.
  eapply sat_bind;
    [ eapply sat_weaken; [ apply asks_address | | apply Hlookup ];
      intros a Ha; exact Ha | ].
  intros [ m | ] Hm; [ now apply sat_append_addresses | now apply sat_ret ].
Qed.

Lemma sat_referral l q (r : Message) (qtype : Z) (servers : list string) :
  udp l q = Some r ->
  sat R (asks qtype) (fun _ => True) (referral from_text lookup r servers).
Proof.
  intros Hq. unfold referral.
  eapply sat_bind; [ eapply sat_additional_servers; exact Hq | ].
  intros [ | s next ] _; [ | now apply sat_ret ].
  eapply sat_authority_servers; exact Hq.
Qed.

Lemma sat_loop_body (target_name : Name) (qtype : Z) (server : string)
    (rest : list string) :
  sat R (asks qtype)
    (fun b => match b with
              | Continue v _ => answers_filled R v
              | Return m => answers_filled R (Some m)
              end)
    (loop_body from_text udp lookup target_name qtype server rest).
Proof.
  unfold loop_body. eapply sat_bind; [ apply sat_send | ].
  intros [ r | ] Hr; [ | apply sat_ret; right; discriminate ].
  destruct (Hr r eq_refl) as (l & q & Hq).
  destruct (answer r) as [ | rs section ] eqn:Ha.
  - eapply sat_bind; [ eapply sat_referral; exact Hq | ].
    intros servers' _. apply sat_ret.
    right. intros m [= <-]. rewrite Ha. constructor.
  - eapply sat_bind; [ eapply sat_chase; exact Hq | ].
    intros m Hm. now apply sat_ret.
Qed.

Lemma sat_lookup_loop (k : nat) (target_name : Name) (qtype : Z)
    (servers : list string) (prev : option (option Message)) :
  match prev with
  | None => servers <> [] \/ R UnboundLocalError
  | Some v => answers_filled R v
  end ->
  sat R (asks qtype) (answers_filled R)
    (lookup_loop from_text udp lookup k target_name qtype servers prev).
Proof.
  revert servers prev.
  induction k as [ | k IH ]; intros [ | server rest ] prev Hprev.
  - destruct prev as [ v | ]; [ now apply sat_ret | ].
    destruct Hprev as [ Hne | HR ]; [ congruence | now apply sat_raise ].
  - intros log. exact I.
  - destruct prev as [ v | ]; [ now apply sat_ret | ].
    destruct Hprev as [ Hne | HR ]; [ congruence | now apply sat_raise ].
  - cbn [lookup_loop]. eapply sat_bind; [ apply sat_loop_body | ].
    intros [ v servers' | m ] Hb; [ now apply IH | now apply sat_ret ].
Qed.

End WithResolver.

Lemma sat_lookup (fuel : nat) (target_name : Name) (qtype : Z) :
  sat R (asks qtype) (answers_filled R)
    (lookup from_text udp fuel target_name qtype).
Proof.
  revert target_name qtype.
  induction fuel as [ | n IH ]; intros target_name qtype.
  - intros log. exact I.
  - cbn [lookup]. apply sat_lookup_loop; [ exact IH | ].
    left. discriminate.
Qed.

End Safety.

(** ** Further properties: whole resolutions *)

Section Resolutions.

Variable from_text : string -> option Name.
Variable udp : Log -> Query -> option Message.

Lemma lookup_loop_silent lookup (target_name : Name) (qtype : Z) :
  (forall l q, udp l q = None) ->
  forall (rest : list string) (server : string) (k : nat) prev log,
    (length rest < k)%nat ->
    lookup_loop from_text udp lookup k target_name qtype (server :: rest) prev log =
    Returned None (log ++ (query_for target_name qtype <$> server :: rest)).
Proof.
  intros Hsilent rest.
  induction rest as [ | next rest IH ]; intros server k prev log Hk;
    (destruct k as [ | k ]; [ simpl in Hk; lia | ]);
    rewrite (lookup_loop_failed from_text udp lookup k _ _ _ _ prev log
               (Hsilent _ _)).
  - apply lookup_loop_exhausted.
  - rewrite IH by (simpl in Hk; lia). now rewrite queries_cons.
Qed.


Lemma resolves_grows (target_name : Name) (qtype : Z)
    (servers : list string) log (r : Message) log' :
  resolves udp target_name qtype servers log r log' ->
  (length log < length log')%nat.
Proof.
  induction 1 as [ ? ? log | ? ? log ? ? ? ? IH | ? ? log ? ? ? ? ? ? ? IH
                 | ? ? log ? ? ? ? ? ? ? ? IH ];
    try (rewrite length_app in *; simpl in *; lia).
Qed.

Lemma lookup_loop_resolves lookup (target_name : Name) (qtype : Z)
    (servers : list string) log (r : Message) log' :
  resolves udp target_name qtype servers log r log' ->
  forall (k : nat) prev,
    (length log' - length log <= k)%nat ->
    lookup_loop from_text udp lookup k target_name qtype servers prev log =
    Returned (Some r) log'.
Proof.
  induction 1 as [ server rest log r Hq Ha Hfree
                 | server rest log r log' Hq Hrest IH
                 | server rest log r0 r log' Hq Ha Hno Hrest IH
                 | server rest log r0 r log' Hq Ha Hne Hsome Hrest IH ];
    intros k prev Hk.
  - destruct k as [ | k ]; [ rewrite length_app in Hk; simpl in Hk; lia | ].
    rewrite (lookup_loop_answer from_text udp lookup k _ _ _ rest prev _ _ Hq Ha).
    unfold bind. now rewrite chase_no_alias.
  - pose proof (resolves_grows _ _ _ _ _ _ Hrest) as Hg.
    rewrite length_app in Hg. simpl in Hg.
    destruct k as [ | k ]; [ lia | ].
    rewrite (lookup_loop_failed from_text udp lookup k _ _ _ rest prev _ Hq).
    apply IH. rewrite length_app. simpl. lia.
  - pose proof (resolves_grows _ _ _ _ _ _ Hrest) as Hg.
    rewrite length_app in Hg. simpl in Hg.
    destruct k as [ | k ]; [ lia | ].
    rewrite (lookup_loop_no_new_candidates from_text udp lookup k _ _ _ rest
               prev _ _ Hq Ha Hno).
    apply IH. rewrite length_app. simpl. lia.
  - pose proof (resolves_grows _ _ _ _ _ _ Hrest) as Hg.
    rewrite length_app in Hg. simpl in Hg.
    destruct k as [ | k ]; [ lia | ].
    rewrite lookup_loop_step,
      (loop_body_referral from_text udp lookup _ _ _ rest _ _ Hq Ha).
    unfold referral, bind.
    rewrite additional_servers_first_addresses by assumption.
    destruct (first_addresses (additional r0)) as [ | s next ] eqn:Hs;
      [ congruence | ].
    apply IH. rewrite length_app. simpl. lia.
Qed.

(** X15. A resolution that goes down the delegations ends with the answer:
    starting from the root servers, passing over those that do not respond
    or have nothing new, following every referral that comes with
    addresses, [lookup] returns the first response that has answers (here
    without alias), having sent exactly the queries of that path; fuel for
    one iteration per query is enough. *)
Theorem lookup_resolves fuel (target_name : Name) (qtype : Z) log
    (r : Message) log' :
  resolves udp target_name qtype ROOT_SERVERS log r log' ->
  (length log' - length log <= fuel)%nat ->
  lookup from_text udp fuel target_name qtype log = Returned (Some r) log'.
Proof.
  intros Hres Hfuel. pose proof (resolves_grows _ _ _ _ _ _ Hres) as Hg.
  destruct fuel as [ | m ]; [ lia | ]. cbn [lookup].
  now apply lookup_loop_resolves.
Qed.

End Resolutions.



(** X18. Whatever the network, the queries that a resolution for a type
    sends, those of the alias chases and nameserver resolutions included,
    ask for that type or for an address, each with a timeout of 3; they are
    added behind the log, which is otherwise left as it was. *)
Theorem lookup_queries
    (from_text : string -> option Name) (udp : Log -> Query -> option Message)
    fuel (target_name : Name) (qtype : Z) log :
  match lookup from_text udp fuel target_name qtype log with
  | OutOfFuel => True
  | Raised _ l | Returned _ l =>
      exists new, l = log ++ new /\ Forall (asks qtype) new
  end.
Proof.
  pose proof (sat_lookup from_text udp (fun _ => True)
                (or_introl I) (or_introl I) (or_introl I)
                fuel target_name qtype log) as Hsat.
  destruct (lookup from_text udp fuel target_name qtype log);
    [ exact I | now destruct Hsat | now destruct Hsat ].
Qed.

(** ** The further theorems at concrete inputs *)

Lemma collect_results_returns_witness :
  collect_results sample_from_text net_address_only 3 "host.example.com." [] =
  Returned
    (results_of "host.example.com." host_answer host_answer host_answer host_answer)
    host_queries.
Proof.
  apply (collect_results_returns sample_from_text net_address_only 3
           "host.example.com." host host_answer host_answer host_answer
           host_answer []
           (take 1 host_queries) (take 2 host_queries) (take 3 host_queries)
           host_queries).
  - reflexivity.
  - reflexivity.
  - reflexivity.
  - reflexivity.
  - reflexivity.
  - constructor; [ | constructor ]. constructor; [ | constructor ].
    intros H; discriminate H.
Defined.

Lemma collect_results_returned_witness :
  exists r1 r2 r3 r4,
    results_of "host.example.com." host_answer host_answer host_answer host_answer =
    results_of "host.example.com." r1 r2 r3 r4.
Proof.
  destruct (collect_results_returned sample_from_text net_address_only 3
              "host.example.com." []
              (results_of "host.example.com." host_answer host_answer
                 host_answer host_answer)
              host_queries)
    as (n & r1 & r2 & r3 & r4 & l1 & l2 & l3 & _ & _ & _ & _ & _ & Hd).
  - vm_compute. reflexivity.
  - now exists r1, r2, r3, r4.
Defined.


Lemma print_results_after_collect_witness :
  exists r1 r2 r3 r4,
    results_of "host.example.com." host_answer host_answer host_answer host_answer =
      results_of "host.example.com." r1 r2 r3 r4 /\
    print_results
      (results_of "host.example.com." host_answer host_answer host_answer
         host_answer) [] =
    PrintOk ([] ++ alias_lines "host.example.com." (answer r1)
                ++ typed_lines address_line 1 (answer r2)
                ++ typed_lines address6_line 28 (answer r3)
                ++ exchanger_lines (answer r4)).
Proof.
  apply (print_results_after_collect sample_from_text net_address_only 3
           "host.example.com." [] _ host_queries).
  vm_compute. reflexivity.
Defined.

Lemma main_prints_name_witness :
  main sample_from_text net_address_only 3 ["host.example.com."] false [] [] =
  MainReturned host_queries host_lines.
Proof.
  rewrite (main_prints_name sample_from_text net_address_only 3
             "host.example.com." [] false host host_answer host_answer
             host_answer host_answer []
             (take 1 host_queries) (take 2 host_queries) (take 3 host_queries)
             host_queries []).
  - reflexivity.
  - reflexivity.
  - reflexivity.
  - reflexivity.
  - reflexivity.
  - reflexivity.
  - constructor; [ | constructor ]. constructor; [ | constructor ].
    intros H; discriminate H.
Defined.

Lemma main_stops_at_malformed_name_witness :
  main sample_from_text net_address_only 3
    (["host.example.com."] ++ "host..example.com." :: ["host.example.com."])
    false [] [] =
  MainRaised (inl SyntaxError) host_queries host_lines.
Proof.
  apply (main_stops_at_malformed_name sample_from_text net_address_only 3
           ["host.example.com."] ["host.example.com."] "host..example.com."
           false [] [] host_queries host_lines).
  - vm_compute. reflexivity.
  - reflexivity.
Defined.

Lemma main_never_raises_format_error_witness :
  main sample_from_text net_address_only 3 ["host.example.com."] false [] [] <>
  MainRaised (inr (KeyError "name")) host_queries [].
Proof.
  apply (main_never_raises_format_error sample_from_text net_address_only 3
           ["host.example.com."] false [] []).
Defined.

Lemma print_results_missing_field_witness :
  print_results
    {[ "CNAME" := [ cname_entry "www.example.com." (cname_record "host.example.com.");
                    {[ "name" := VStr "host.example.com." ]} ] ]}
    [] =
  PrintRaised (KeyError "alias")
    ([] ++ (cname_line "www.example.com." <$> [cname_record "host.example.com."])).
Proof.
  apply (print_results_missing_field _ "www.example.com."
           [cname_record "host.example.com."]
           {[ "name" := VStr "host.example.com." ]} [] []).
  - reflexivity.
  - reflexivity.
Defined.

Lemma lookup_returns_direct_answer_witness :
  lookup_loop sample_from_text net_delegated
    (lookup sample_from_text net_delegated 2) 1 www rdatatype.A
    ["10.0.0.1"; "10.0.0.2"] None [] =
  Returned (Some delegated_answer) ([] ++ [query_for www rdatatype.A "10.0.0.1"]).
Proof.
  apply (lookup_returns_direct_answer sample_from_text net_delegated).
  - reflexivity.
  - discriminate.
  - constructor; [ | constructor ]. constructor; [ | constructor ].
    intros H; discriminate H.
Defined.

Lemma lookup_follows_alias_witness :
  lookup_loop sample_from_text net_one_alias
    (lookup sample_from_text net_one_alias 2) 1 www rdatatype.A
    (first_root :: tail ROOT_SERVERS) None [] =
  Returned (Some (extend_answer one_alias [address_of_host]))
    [ query_for www rdatatype.A first_root;
      query_for host rdatatype.A first_root ].
Proof.
  rewrite (lookup_follows_alias sample_from_text net_one_alias
             (lookup sample_from_text net_one_alias 2) 0 www rdatatype.A
             first_root (tail ROOT_SERVERS) None [] one_alias [] []
             (rrset_of "www.example.com." (cname_record "host.example.com.") [])
             [] [] (cname_record "host.example.com.") host).
  - reflexivity.
  - reflexivity.
  - reflexivity.
  - reflexivity.
  - constructor.
  - constructor.
  - constructor.
  - constructor.
  - reflexivity.
  - reflexivity.
Defined.

Lemma lookup_keeps_direct_answer_witness :
  exists more,
    Some (extend_answer two_aliases [address_of_c]) =
    Some (extend_answer two_aliases more).
Proof.
  apply (lookup_keeps_direct_answer sample_from_text net_two_aliases
           (lookup sample_from_text net_two_aliases 2) 0 www rdatatype.A
           first_root (tail ROOT_SERVERS) None [] two_aliases _
           [ query_for www rdatatype.A first_root;
             query_for (mkName "b.example.com.") rdatatype.A first_root;
             query_for (mkName "c.example.com.") rdatatype.A first_root ]).
  - reflexivity.
  - discriminate.
  - reflexivity.
Defined.

Lemma lookup_continues_after_negative_response_witness :
  lookup_loop sample_from_text net_empty (lookup sample_from_text net_empty 2) 2
    www rdatatype.A ["10.0.0.1"; "10.0.0.2"] None [] =
  lookup_loop sample_from_text net_empty (lookup sample_from_text net_empty 2) 1
    www rdatatype.A ["10.0.0.2"] (Some (Some empty_message))
    ([] ++ [query_for www rdatatype.A "10.0.0.1"]).
Proof.
  apply (lookup_continues_after_negative_response sample_from_text net_empty).
  - reflexivity.
  - reflexivity.
  - split; constructor.
Defined.

Lemma lookup_raises_on_malformed_nameserver_witness :
  lookup_loop sample_from_text net_bad_nameserver
    (lookup sample_from_text net_bad_nameserver 2) 1 www rdatatype.A
    ROOT_SERVERS None [] =
  Raised SyntaxError ([] ++ [query_for www rdatatype.A first_root]).
Proof.
  apply (lookup_raises_on_malformed_nameserver sample_from_text
           net_bad_nameserver _ 0 www rdatatype.A first_root
           (tail ROOT_SERVERS) None [] bad_referral
           (rrset_of "example.com." (ns_record "ns..example.net.") []) []
           (ns_record "ns..example.net.") []).
  - reflexivity.
  - reflexivity.
  - constructor.
  - reflexivity.
  - reflexivity.
  - reflexivity.
  - discriminate.
  - reflexivity.
Defined.


Lemma lookup_resolves_witness :
  lookup sample_from_text net_delegated 2 www rdatatype.A [] =
  Returned (Some delegated_answer)
    [ query_for www rdatatype.A first_root; query_for www rdatatype.A "10.0.0.1" ].
Proof.
  apply (lookup_resolves sample_from_text net_delegated 2 www rdatatype.A []).
  - apply (resolves_referral net_delegated www rdatatype.A first_root
             (tail ROOT_SERVERS) [] glue_referral).
    + reflexivity.
    + reflexivity.
    + repeat constructor. discriminate.
    + discriminate.
    + apply (resolves_answer net_delegated www rdatatype.A "10.0.0.1" []
               [query_for www rdatatype.A first_root]).
      * reflexivity.
      * discriminate.
      * repeat constructor. discriminate.
  - simpl. lia.
Defined.


